(** * Region provider and suggestion-state telemetry of the AWS Toolkit

    A shallow embedding of
    - [src/shared/regions/regionProvider.ts] (class [RegionProvider]) and
    - [TelemetryHelper.getSuggestionState] of the CodeWhisperer telemetry
      helper,
    followed by the properties of the region index stated in the
    specification.

    JavaScript strings are [string]; a value of type [T | undefined] is an
    [option T]; the insertion-ordered [Map<string, RegionData>] is an
    association list in insertion order; the [Map<number, string>] read by
    [getSuggestionState], where only lookups are observed, is a [gmap]. *)

From Stdlib Require Import ZArith Lia.
From stdpp Require Import base option list strings gmap.

Local Open Scope string_scope.
Local Open Scope list_scope.

(** ** JavaScript primitives used by the two files *)

Module Js.

(** Truthiness of a string: every string but the empty one. *)
Definition truthy (s : string) : bool :=
  match s with
  | EmptyString => false
  | String _ _ => true
  end.

(** Truthiness of a [string | undefined]. *)
Definition truthy_opt (o : option string) : bool :=
  match o with
  | Some s => truthy s
  | None => false
  end.

(** The value seen by [if (x) { return x }]: the string when it is truthy. *)
Definition if_truthy (o : option string) : option string :=
  match o with
  | Some s => if truthy s then Some s else None
  | None => None
  end.

(** [a ?? b]: [b] only when [a] is [undefined]. *)
Definition nullish {A : Type} (a : option A) (b : A) : A :=
  match a with
  | Some x => x
  | None => b
  end.

(** [Array.prototype.find]: the first element satisfying the predicate. *)
Fixpoint Array_find {A : Type} (f : A -> bool) (l : list A) : option A :=
  match l with
  | [] => None
  | x :: l' => if f x then Some x else Array_find f l'
  end.

(** [Array.prototype.push]. *)
Definition Array_push {A : Type} (l : list A) (x : A) : list A := l ++ [x].

(** [Set.prototype.add] on a set of strings kept in insertion order. *)
Definition Set_add (s : list string) (x : string) : list string :=
  if bool_decide (x ∈ s) then s else s ++ [x].

(** [new Set(iterable)]: the elements are added one by one. *)
Definition new_Set (l : list string) : list string :=
  fold_left Set_add l [].

(** [Array.from(set)]: the elements in insertion order. *)
Definition Array_from (s : list string) : list string := s.

(** *** [Map<string, V>], in insertion order *)

Section StringMap.
Context {V : Type}.

Fixpoint Map_get (m : list (string * V)) (k : string) : option V :=
  match m with
  | [] => None
  | (k', v) :: m' => if bool_decide (k' = k) then Some v else Map_get m' k
  end.

(** [Map.prototype.set]: an existing key keeps its position and takes
    the new value, a new key is added at the end. *)
Fixpoint Map_set (m : list (string * V)) (k : string) (v : V)
  : list (string * V) :=
  match m with
  | [] => [(k, v)]
  | (k', v') :: m' =>
      if bool_decide (k' = k) then (k', v) :: m'
      else (k', v') :: Map_set m' k v
  end.

Definition Map_values (m : list (string * V)) : list V := m.*2.

Definition Map_keys (m : list (string * V)) : list string := m.*1.

Definition Map_clear (m : list (string * V)) : list (string * V) := [].
End StringMap.

End Js.

(** ** Diagnostics

    The logger and the error pop-up are sinks outside the provider; a call
    is modelled by the list of diagnostics it emits, in order. *)

Inductive Diagnostic : Type :=
| LogWarn (message : string)
| LogError (format : string) (arg : string)
| ShowErrorMessage (message : string).

Definition Diag (A : Type) : Type := A * list Diagnostic.

Definition dret {A : Type} (a : A) : Diag A := (a, []).

Definition dbind {A B : Type} (m : Diag A) (k : A -> Diag B) : Diag B :=
  let '(a, d1) := m in
  let '(b, d2) := k a in
  (b, d1 ++ d2).

Definition emit (d : Diagnostic) : Diag unit := (tt, [d]).

Definition when_ (b : bool) (m : Diag unit) : Diag unit :=
  if b then m else dret tt.

Notation "'do' x <~ m ;; k" := (dbind m (fun x => k))
  (at level 10, x name, m at level 99, k at level 200).

(** ** Data model *)

(** Modelled from the spec: the manifest types of [./endpoints] are imported
    by the provider but are not among the sources.  Their shape is the one
    of section 6: Manifest = {partitions: [{id, dnsSuffix, regions: [{id,
    ...}], services: [{id, endpoints: [{regionId, ...}]}]}]}; a region
    carries its identifier and its display name. *)
Record Region : Type := {
  Region_id : string;
  Region_name : string;
}.

Record ServiceEndpoint : Type := {
  ServiceEndpoint_regionId : string;
}.

Record Service : Type := {
  Service_id : string;
  Service_endpoints : list ServiceEndpoint;
}.

Record Partition : Type := {
  Partition_dnsSuffix : string;
  Partition_id : string;
  Partition_regions : list Region;
  Partition_services : list Service;
}.

Record Endpoints : Type := {
  partitions : list Partition;
}.

Record RegionData : Type := {
  dnsSuffix : string;
  partitionId : string;
  region : Region;
  serviceIds : list string;
}.

(** The two entries of the extension's global state (a [vscode.Memento])
    that the provider reads and writes: the explorer regions, kept under
    [regionSettingKey], and the last wizard response, kept under
    ['lastSelectedRegion'].  An entry that was never written is [None]. *)
Record GlobalState : Type := {
  gs_regionSetting : option (list string);
  gs_lastSelectedRegion : option Region;
}.

(** [Pick<AwsContext, 'getCredentialDefaultRegion'>]. *)
Record AwsContext : Type := {
  getCredentialDefaultRegion : option string;
}.

(** The part of a tree node the provider looks at. *)
Record AWSTreeNodeBase : Type := {
  regionCode : option string;
}.

Record RegionProvider : Type := {
  regionData : list (string * RegionData);
  (** number of times [onDidChangeEmitter.fire()] ran *)
  onDidChangeFired : nat;
  lastTouchedRegion : option string;
  globalState : GlobalState;
  awsContext : AwsContext;
}.

Definition DEFAULT_REGION : string := "us-east-1".
Definition DEFAULT_PARTITION : string := "aws".
Definition DEFAULT_DNS_SUFFIX : string := "amazonaws.com".

Definition with_regionData (p : RegionProvider)
    (t : list (string * RegionData)) : RegionProvider :=
  {| regionData := t;
     onDidChangeFired := onDidChangeFired p;
     lastTouchedRegion := lastTouchedRegion p;
     globalState := globalState p;
     awsContext := awsContext p |}.

(** ** Queries *)

Definition defaultRegionId (p : RegionProvider) : string :=
  Js.nullish (getCredentialDefaultRegion (awsContext p)) DEFAULT_REGION.

Definition isServiceInRegion (p : RegionProvider)
    (serviceId regionId : string) : bool :=
  let found :=
    Js.Map_get (regionData p) regionId ≫=
      (fun rd => Js.Array_find (fun x => bool_decide (x = serviceId))
                               (serviceIds rd)) in
  (* [!!found ?? false] parses as [(!!found) ?? false], and a boolean is
     never nullish *)
  Js.nullish (Some (Js.truthy_opt found)) false.

Definition getPartitionId (p : RegionProvider) (regionId : string)
  : Diag (option string) :=
  let partitionId := partitionId <$> Js.Map_get (regionData p) regionId in
  do _u <~ when_ (negb (Js.truthy_opt partitionId))
               (emit (LogWarn ("Unable to determine the Partition that Region "
                                 +:+ regionId +:+ " belongs to"))) ;;
  dret (Js.nullish (Some <$> partitionId) None).

Definition defaultPartitionId (p : RegionProvider) : Diag (option string) :=
  getPartitionId p (defaultRegionId p).

Definition getDnsSuffixForRegion (p : RegionProvider) (regionId : string)
  : Diag (option string) :=
  let dnsSuffix := dnsSuffix <$> Js.Map_get (regionData p) regionId in
  do _u <~ when_ (negb (Js.truthy_opt dnsSuffix))
               (emit (LogWarn ("Unable to find region data for: " +:+ regionId))) ;;
  dret (Js.nullish (Some <$> dnsSuffix) None).

(** [getRegions(partitionId = this.defaultPartitionId)]: the default is
    evaluated when the argument is [undefined]. *)
Definition getRegions (p : RegionProvider) (partitionId_arg : option string)
  : Diag (list Region) :=
  do pid <~ match partitionId_arg with
         | Some x => dret (Some x)
         | None => defaultPartitionId p
         end ;;
  dret (region <$>
          filter (fun rd => Some (partitionId rd) = pid)
                 (Js.Map_values (regionData p))).

Definition getExplorerRegions (p : RegionProvider) : list string :=
  Js.nullish (gs_regionSetting (globalState p)) [].

Definition updateExplorerRegions (p : RegionProvider) (regions : list string)
  : RegionProvider :=
  {| regionData := regionData p;
     onDidChangeFired := onDidChangeFired p;
     lastTouchedRegion := lastTouchedRegion p;
     globalState :=
       {| gs_regionSetting := Some (Js.Array_from (Js.new_Set regions));
          gs_lastSelectedRegion := gs_lastSelectedRegion (globalState p) |};
     awsContext := awsContext p |}.

Definition guessDefaultRegion (p : RegionProvider)
    (node : option AWSTreeNodeBase) : string :=
  let explorerRegions := getExplorerRegions p in
  match Js.if_truthy (node ≫= regionCode) with
  | Some code => code
  | None =>
      match explorerRegions with
      | [r] => r              (* length === 1, explorerRegions[0] *)
      | _ =>
          match Js.if_truthy (lastTouchedRegion p) with
          | Some r => r
          | None =>
              let lastWizardResponse :=
                gs_lastSelectedRegion (globalState p) in
              match Js.if_truthy (Region_id <$> lastWizardResponse) with
              | Some id => id
              | None => defaultRegionId p
              end
          end
      end
  end.

Definition setLastTouchedRegion (p : RegionProvider) (r : option string)
  : RegionProvider :=
  match Js.if_truthy r with
  | Some r' =>
      {| regionData := regionData p;
         onDidChangeFired := onDidChangeFired p;
         lastTouchedRegion := Some r';
         globalState := globalState p;
         awsContext := awsContext p |}
  | None => p
  end.

(** ** Ingestion of the endpoints manifest *)

(** [this.regionData.set(region.id, { ..., serviceIds: [] })] *)
Definition setRegion (partition : Partition)
    (t : list (string * RegionData)) (r : Region)
  : list (string * RegionData) :=
  Js.Map_set t (Region_id r)
    {| dnsSuffix := Partition_dnsSuffix partition;
       partitionId := Partition_id partition;
       region := r;
       serviceIds := [] |}.

(** [regionData.serviceIds.push(service.id)] on the record held by the map:
    the record keeps its place and its other fields. *)
Definition pushServiceId (rd : RegionData) (serviceId : string) : RegionData :=
  {| dnsSuffix := dnsSuffix rd;
     partitionId := partitionId rd;
     region := region rd;
     serviceIds := Js.Array_push (serviceIds rd) serviceId |}.

Definition loadEndpoint (service : Service)
    (t : list (string * RegionData)) (endpoint : ServiceEndpoint)
  : list (string * RegionData) :=
  match Js.Map_get t (ServiceEndpoint_regionId endpoint) with
  | Some rd =>
      Js.Map_set t (ServiceEndpoint_regionId endpoint)
        (pushServiceId rd (Service_id service))
  | None => t
  end.

Definition loadService (t : list (string * RegionData)) (service : Service)
  : list (string * RegionData) :=
  fold_left (loadEndpoint service) (Service_endpoints service) t.

Definition loadPartition (t : list (string * RegionData))
    (partition : Partition) : list (string * RegionData) :=
  let t := fold_left (setRegion partition) (Partition_regions partition) t in
  fold_left loadService (Partition_services partition) t.

Definition loadTable (ps : list Partition) (t : list (string * RegionData))
  : list (string * RegionData) :=
  fold_left loadPartition ps t.

Definition loadFromEndpoints (endpoints : Endpoints) (p : RegionProvider)
  : RegionProvider :=
  with_regionData p (loadTable (partitions endpoints) (regionData p)).

(** [new RegionProvider(endpoints, globalState, awsContext)] *)
Definition new_RegionProvider (endpoints : Endpoints) (gs : GlobalState)
    (ctx : AwsContext) : RegionProvider :=
  loadFromEndpoints endpoints
    {| regionData := [];
       onDidChangeFired := 0;
       lastTouchedRegion := None;
       globalState := gs;
       awsContext := ctx |}.

(** ** Loading from an endpoints provider *)

(** The state in which a promise settles. *)
Inductive Settled (A : Type) : Type :=
| Fulfilled (value : A)
| Rejected (err : string).
Arguments Fulfilled {A} value.
Arguments Rejected {A} err.

(** A handler runs on the instance and may emit diagnostics. *)
Definition Handler (A : Type) : Type :=
  RegionProvider -> Diag (A * RegionProvider).

(** [promise.then(onFulfilled)]: a rejection skips the handler. *)
Definition Promise_then {A B : Type} (pr : Settled A) (onFulfilled : A -> Handler B)
  : Handler (Settled B) :=
  fun inst =>
    match pr with
    | Fulfilled a =>
        do r <~ onFulfilled a inst ;;
        dret (Fulfilled r.1, r.2)
    | Rejected e => dret (Rejected e, inst)
    end.

(** [promise.catch(onRejected)]: a rejection is handled and the resulting
    promise is fulfilled. *)
Definition Promise_catch {B : Type} (pr : Handler (Settled B))
    (onRejected : string -> Handler B) : Handler (Settled B) :=
  fun inst =>
    do r <~ pr inst ;;
    match r.1 with
    | Fulfilled b => dret (Fulfilled b, r.2)
    | Rejected e =>
        do r' <~ onRejected e r.2 ;;
        dret (Fulfilled r'.1, r'.2)
    end.

(** What the message of the error pop-up depends on: the message bundle of
    [vscode-nls] and the IDE the extension runs in. *)
Record Host : Type := {
  localize : string -> string -> list string -> string;
  company : string;
  isCloud9 : bool;
  (** the globals the constructor takes by default *)
  globals_globalState : GlobalState;
  globals_awsContext : AwsContext;
}.

Definition onEndpointsLoaded (endpoints : Endpoints) : Handler unit :=
  fun instance =>
    let instance := with_regionData instance (Js.Map_clear (regionData instance)) in
    let instance := loadFromEndpoints endpoints instance in
    let instance :=
      {| regionData := regionData instance;
         onDidChangeFired := S (onDidChangeFired instance);
         lastTouchedRegion := lastTouchedRegion instance;
         globalState := globalState instance;
         awsContext := awsContext instance |} in
    dret (tt, instance).

Definition onEndpointsFailed (host : Host) (err : string) : Handler unit :=
  fun instance =>
    do _u <~ emit (LogError "Failure while loading Endpoints Manifest: %s" err) ;;
    do _u <~ emit (ShowErrorMessage
      (localize host "AWS.error.endpoint.load.failure"
         "The {0} Toolkit was unable to load endpoints data." [company host]
       +:+ " " +:+
       (if isCloud9 host
        then localize host "AWS.error.impactedFunctionalityReset.cloud9"
               "Toolkit functionality may be impacted until the Cloud9 browser tab is refreshed." []
        else localize host "AWS.error.impactedFunctionalityReset.vscode"
               "Toolkit functionality may be impacted until VS Code is restarted." []))) ;;
    dret (tt, instance).

(** The continuation attached to [endpointsProvider.load()]: it runs on the
    instance once the load has settled. *)
Definition settleLoad (host : Host) (loaded : Settled Endpoints)
  : Handler (Settled unit) :=
  Promise_catch (Promise_then loaded onEndpointsLoaded) (onEndpointsFailed host).

(** [RegionProvider.fromEndpointsProvider]: the instance is returned at
    once, built from an empty manifest; [settleLoad] acts on it later. *)
Definition fromEndpointsProvider_instance (host : Host) : RegionProvider :=
  new_RegionProvider {| partitions := [] |}
    (globals_globalState host) (globals_awsContext host).

Definition fromEndpointsProvider (host : Host) (loaded : Settled Endpoints)
  : Diag (Settled unit * RegionProvider) :=
  settleLoad host loaded (fromEndpointsProvider_instance host).

(** ** Suggestion state of the CodeWhisperer telemetry helper *)

(** [['Empty', 'Filter', 'Discard'].includes(state)] *)
Definition Array_includes (l : list string) (s : string) : bool :=
  bool_decide (s ∈ l).

Definition getSuggestionState (i acceptIndex : Z)
    (recommendationSuggestionState : option (gmap Z string)) : string :=
  let state := recommendationSuggestionState ≫= (fun m => m !! i) in
  let otherwise :=
    if bool_decide (recommendationSuggestionState <> None)
       && bool_decide (recommendationSuggestionState ≫= (fun m => m !! i)
                       <> Some "Showed")
    then "Unseen"
    else if bool_decide (acceptIndex = (-1)%Z) then "Reject"
    else if bool_decide (i = acceptIndex) then "Accept" else "Ignore" in
  match state with
  | Some s =>
      if Js.truthy s && Array_includes ["Empty"; "Filter"; "Discard"] s
      then s
      else otherwise
  | None => otherwise
  end.

(** ** Sample manifests *)

Definition usEast1 : Region := {| Region_id := "us-east-1"; Region_name := "US East (N. Virginia)" |}.
Definition euWest1 : Region := {| Region_id := "eu-west-1"; Region_name := "Europe (Ireland)" |}.
Definition cnNorth1 : Region := {| Region_id := "cn-north-1"; Region_name := "China (Beijing)" |}.

Definition svc (id : string) (regionIds : list string) : Service :=
  {| Service_id := id;
     Service_endpoints := (fun r => {| ServiceEndpoint_regionId := r |}) <$> regionIds |}.

Definition awsPartition : Partition :=
  {| Partition_dnsSuffix := "amazonaws.com";
     Partition_id := "aws";
     Partition_regions := [usEast1; euWest1];
     Partition_services := [svc "s3" ["us-east-1"; "eu-west-1"]; svc "lambda" ["us-east-1"]] |}.

Definition awsCnPartition : Partition :=
  {| Partition_dnsSuffix := "amazonaws.com.cn";
     Partition_id := "aws-cn";
     Partition_regions := [cnNorth1];
     Partition_services := [svc "s3" ["cn-north-1"]] |}.

Definition sampleEndpoints : Endpoints :=
  {| partitions := [awsPartition; awsCnPartition] |}.

Definition emptyGlobalState : GlobalState :=
  {| gs_regionSetting := None; gs_lastSelectedRegion := None |}.

Definition noCredentials : AwsContext :=
  {| getCredentialDefaultRegion := None |}.

Definition sampleProvider : RegionProvider :=
  new_RegionProvider sampleEndpoints emptyGlobalState noCredentials.

(** ** Notions used to state and prove the properties *)

(** The region of [part] that ends up in the map for the id [r]: the last
    one declared with that id. *)
Definition declaredRegion (part : Partition) (r : string) : option Region :=
  last (filter (fun reg => Region_id reg = r) (Partition_regions part)).

(** [part] declares a region with id [r]. *)
Definition declares (part : Partition) (r : string) : Prop :=
  r ∈ Region_id <$> Partition_regions part.

(** The service ids that the endpoints of [s] targeting [r] add. *)
Definition serviceHits (s : Service) (r : string) : list string :=
  (fun _ => Service_id s) <$>
    filter (fun e => ServiceEndpoint_regionId e = r) (Service_endpoints s).

Definition servicesHits (ss : list Service) (r : string) : list string :=
  ss ≫= (fun s => serviceHits s r).

Definition manifestHits (ps : list Partition) (r : string) : list string :=
  ps ≫= (fun part => servicesHits (Partition_services part) r).
Arguments manifestHits : simpl never.

(** The manifest declares an endpoint of a service with id [s] that targets
    the region id [r]. *)
Definition declaresEndpoint (ps : list Partition) (s r : string) : Prop :=
  exists part service endpoint,
    part ∈ ps /\ service ∈ Partition_services part /\
    Service_id service = s /\
    endpoint ∈ Service_endpoints service /\
    ServiceEndpoint_regionId endpoint = r.

Definition appendServiceIds (ids : list string) (rd : RegionData) : RegionData :=
  {| dnsSuffix := dnsSuffix rd;
     partitionId := partitionId rd;
     region := region rd;
     serviceIds := serviceIds rd ++ ids |}.

Definition freshRecord (part : Partition) (reg : Region) : RegionData :=
  {| dnsSuffix := Partition_dnsSuffix part;
     partitionId := Partition_id part;
     region := reg;
     serviceIds := [] |}.

(** The states of a provider that its constructor and its methods produce. *)
Inductive reachable (host : Host) : RegionProvider -> Prop :=
| reach_new endpoints gs ctx :
    reachable host (new_RegionProvider endpoints gs ctx)
| reach_load endpoints p :
    reachable host p -> reachable host (loadFromEndpoints endpoints p)
| reach_settle loaded p :
    reachable host p -> reachable host (settleLoad host loaded p).1.2
| reach_touch r p :
    reachable host p -> reachable host (setLastTouchedRegion p r)
| reach_update regions p :
    reachable host p -> reachable host (updateExplorerRegions p regions).

(** Two region records that no query tells apart: the same fields and the
    same members of [serviceIds]. *)
Definition sameRecord (a b : RegionData) : Prop :=
  dnsSuffix a = dnsSuffix b /\ partitionId a = partitionId b /\
  region a = region b /\ (forall x, x ∈ serviceIds a <-> x ∈ serviceIds b).

(** The node carries no truthy region code: there is no node, or it has no
    region code, or an empty one. *)
Definition noRegionCode (node : option AWSTreeNodeBase) : Prop :=
  forall n c, node = Some n -> regionCode n = Some c -> c = "".

(** No truthy last-touched region is recorded. *)
Definition noLastTouched (p : RegionProvider) : Prop :=
  lastTouchedRegion p = None \/ lastTouchedRegion p = Some "".

(** Two maps that no query tells apart: the same keys in the same order,
    with records that no query tells apart. *)
Definition sameEntry (a b : string * RegionData) : Prop :=
  a.1 = b.1 /\ sameRecord a.2 b.2.

Definition sameTable (t t' : list (string * RegionData)) : Prop :=
  Forall2 sameEntry t t'.

(** ** Sample inputs for the edge cases *)

(** A service whose endpoint targets a region no partition declares. *)
Definition danglingEndpoints : Endpoints :=
  {| partitions :=
       [ {| Partition_dnsSuffix := "amazonaws.com";
            Partition_id := "aws";
            Partition_regions := [];
            Partition_services := [svc "s3" ["us-east-1"]] |} ] |}.

(** A service whose id is the empty string. *)
Definition blankServiceEndpoints : Endpoints :=
  {| partitions :=
       [ {| Partition_dnsSuffix := "amazonaws.com";
            Partition_id := "aws";
            Partition_regions := [usEast1];
            Partition_services := [svc "" ["us-east-1"]] |} ] |}.

(** A partition whose id and DNS suffix are the empty string. *)
Definition blankPartitionEndpoints : Endpoints :=
  {| partitions :=
       [ {| Partition_dnsSuffix := "";
            Partition_id := "";
            Partition_regions := [usEast1];
            Partition_services := [] |} ] |}.

(** One pinned explorer region. *)
Definition pinnedEuWest1 : GlobalState :=
  {| gs_regionSetting := Some ["eu-west-1"]; gs_lastSelectedRegion := None |}.

(** A tree node whose region code is the empty string. *)
Definition blankNode : AWSTreeNodeBase := {| regionCode := Some "" |}.

Definition sampleHost : Host :=
  {| localize := fun _ message _ => message;
     company := "AWS";
     isCloud9 := false;
     globals_globalState := emptyGlobalState;
     globals_awsContext := noCredentials |}.

(** The region ids that the partitions declare, in manifest order. *)
Definition declaredIds (ps : list Partition) : list string :=
  ps ≫= (fun part => Region_id <$> Partition_regions part).

(** Every record is filed under the id of its region. *)
Definition keyedById (t : list (string * RegionData)) : Prop :=
  forall k rd, Js.Map_get t k = Some rd -> Region_id (region rd) = k.

(** ** Recording user decisions (the telemetry helper) *)

(** [Array.prototype.forEach] with the index passed to the callback; the
    callback acts on a state [St]. *)
Fixpoint Array_forEach_from {A St : Type} (callback : A -> nat -> St -> St)
    (l : list A) (i : nat) (s : St) : St :=
  match l with
  | [] => s
  | x :: l' => Array_forEach_from callback l' (S i) (callback x i s)
  end.

Definition Array_forEach {A St : Type} (callback : A -> nat -> St -> St)
    (l : list A) (s : St) : St :=
  Array_forEach_from callback l 0 s.

Record TelemetryHelper : Type := {
  triggerType : string;
  CodeWhispererAutomatedtriggerType : string;
  completionType : string;
  cursorOffset : Z;
  startUrl : option string;
}.

(** [new TelemetryHelper()] *)
Definition new_TelemetryHelper : TelemetryHelper :=
  {| triggerType := "OnDemand";
     CodeWhispererAutomatedtriggerType := "KeyStrokeCount";
     completionType := "Line";
     cursorOffset := 0;
     startUrl := Some "" |}.

(** [TelemetryHelper.instance]: [this.#instance ??= new this()], on the
    static field; the helper read and the field afterwards. *)
Definition TelemetryHelper_instance (static : option TelemetryHelper)
  : TelemetryHelper * option TelemetryHelper :=
  let instance := Js.nullish static new_TelemetryHelper in
  (instance, Some instance).

(** What the helper takes from the modules around it: the references of a
    recommendation and [LicenseUtil.getUniqueLicenseNames] on them (the
    elements of the set it returns, in insertion order), the language of
    [runtimeLanguageContext.getLanguageContext], and [JSON.stringify] on an
    array of strings. *)
Record TelemetryEnv : Type := {
  Reference : Type;
  getUniqueLicenseNames : option (list Reference) -> list string;
  getLanguageContext_language : option string -> string;
  JSON_stringify : list string -> string;
}.

(** An element of a [RecommendationsList]. *)
Record Recommendation (env : TelemetryEnv) : Type := {
  content : string;
  references : option (list (Reference env));
}.
Arguments content {env} _.
Arguments references {env} _.

(** The payload of [telemetry.codewhisperer_userDecision.emit]. *)
Record UserDecision : Type := {
  codewhispererRequestId : string;
  codewhispererSessionId : option string;
  codewhispererPaginationProgress : Z;
  codewhispererTriggerType : string;
  codewhispererSuggestionIndex : Z;
  codewhispererSuggestionState : string;
  codewhispererSuggestionReferences : option string;
  codewhispererSuggestionReferenceCount : nat;
  codewhispererCompletionType : string;
  codewhispererLanguage : string;
  credentialStartUrl : option string;
}.

(** What a recording acts on: the events emitted so far, the map of
    suggestion states shared with the caller, and the static instance. *)
Record Recording : Type := {
  emitted : list UserDecision;
  suggestionStates : option (gmap Z string);
  static_instance : option TelemetryHelper;
}.

Definition recordUserDecisionTelemetryForEmptyList (this : TelemetryHelper)
    (env : TelemetryEnv) (requestId sessionId : string) (paginationIndex : Z)
    (languageId : string) (rec : Recording) : Recording :=
  let language := getLanguageContext_language env (Some languageId) in
  let '(instance, static) := TelemetryHelper_instance (static_instance rec) in
  {| emitted :=
       emitted rec ++
       [ {| codewhispererRequestId := requestId;
            codewhispererSessionId := Js.if_truthy (Some sessionId);
            codewhispererPaginationProgress := paginationIndex;
            codewhispererTriggerType := triggerType this;
            codewhispererSuggestionIndex := -1;
            codewhispererSuggestionState := "Empty";
            codewhispererSuggestionReferences := None;
            codewhispererSuggestionReferenceCount := 0;
            codewhispererCompletionType := completionType this;
            codewhispererLanguage := language;
            credentialStartUrl := startUrl instance |} ];
     suggestionStates := suggestionStates rec;
     static_instance := static |}.

(** The object passed to [emit] for the element [_elem] at index [i], given
    the suggestion states at that moment and the static instance. *)
Definition userDecision (this : TelemetryHelper) (env : TelemetryEnv)
    (requestId sessionId : string) (acceptIndex : Z) (language : string)
    (paginationIndex : Z) (_elem : Recommendation env) (i : nat)
    (states : option (gmap Z string)) (instance : TelemetryHelper)
  : UserDecision :=
  let uniqueLicenseSet := getUniqueLicenseNames env (references _elem) in
  let uniqueSuggestionReferences :=
    if bool_decide (0 < length uniqueLicenseSet)
    then Some (JSON_stringify env (Js.Array_from uniqueLicenseSet))
    else None in
  {| codewhispererRequestId := requestId;
     codewhispererSessionId := Js.if_truthy (Some sessionId);
     codewhispererPaginationProgress := paginationIndex;
     codewhispererTriggerType := triggerType this;
     codewhispererSuggestionIndex := Z.of_nat i;
     codewhispererSuggestionState :=
       getSuggestionState (Z.of_nat i) acceptIndex states;
     codewhispererSuggestionReferences := uniqueSuggestionReferences;
     codewhispererSuggestionReferenceCount :=
       match references _elem with
       | Some refs => length refs
       | None => 0
       end;
     codewhispererCompletionType := completionType this;
     codewhispererLanguage := language;
     credentialStartUrl := startUrl instance |}.

(** The callback of [recommendations.forEach((_elem, i) => ...)]: an
    element without content is marked in the map, if there is one, and then
    the event is emitted. *)
Definition recordOne (this : TelemetryHelper) (env : TelemetryEnv)
    (requestId sessionId : string) (acceptIndex : Z) (language : string)
    (paginationIndex : Z) (_elem : Recommendation env) (i : nat)
    (rec : Recording) : Recording :=
  let states :=
    if bool_decide (String.length (content _elem) = 0)
    then (fun m => <[Z.of_nat i := "Empty"]> m) <$> suggestionStates rec
    else suggestionStates rec in
  let '(instance, static) := TelemetryHelper_instance (static_instance rec) in
  {| emitted :=
       emitted rec ++
       [ userDecision this env requestId sessionId acceptIndex language
           paginationIndex _elem i states instance ];
     suggestionStates := states;
     static_instance := static |}.

Definition recordUserDecisionTelemetry (this : TelemetryHelper)
    (env : TelemetryEnv) (requestId sessionId : string)
    (recommendations : list (Recommendation env)) (acceptIndex : Z)
    (languageId : option string) (paginationIndex : Z)
    (rec : Recording) : Recording :=
  let language := getLanguageContext_language env languageId in
  Array_forEach
    (recordOne this env requestId sessionId acceptIndex language paginationIndex)
    recommendations rec.

(** The states after the elements of [l], numbered from [i], were visited:
    the ones without content are marked. *)
Fixpoint markEmpty {env : TelemetryEnv} (l : list (Recommendation env))
    (i : nat) (m : gmap Z string) : gmap Z string :=
  match l with
  | [] => m
  | e :: l' =>
      markEmpty l' (S i)
        (if bool_decide (String.length (content e) = 0)
         then <[Z.of_nat i := "Empty"]> m else m)
  end.

(** The seven values of [CodewhispererSuggestionState]. *)
Definition suggestionStateNames : list string :=
  ["Accept"; "Reject"; "Discard"; "Ignore"; "Filter"; "Unseen"; "Empty"].

(** A sample environment: references are license names. *)
Definition sampleEnv : TelemetryEnv :=
  {| Reference := string;
     getUniqueLicenseNames := fun refs => Js.new_Set (Js.nullish refs []);
     getLanguageContext_language := fun languageId => Js.nullish languageId "plaintext";
     JSON_stringify := fun l => String.concat "," l |}.

Definition sampleRecommendations : list (Recommendation sampleEnv) :=
  [ Build_Recommendation sampleEnv "x = 1" None;
    Build_Recommendation sampleEnv "" (Some ["MIT"]);
    Build_Recommendation sampleEnv "y = 2" (Some ["MIT"; "MIT"]) ].

Definition emptyRecording (states : option (gmap Z string)) : Recording :=
  {| emitted := []; suggestionStates := states; static_instance := None |}.

(** ** The insertion-ordered map *)

Section MapLemmas.
Context {V : Type}.
Implicit Types (m : list (string * V)) (k : string) (v : V).

Lemma Map_get_set m k v k' :
  Js.Map_get (Js.Map_set m k v) k' =
    if bool_decide (k = k') then Some v else Js.Map_get m k'.
Proof.
  induction m as [|[k0 v0] m IH]; simpl.
  - repeat case_bool_decide; done.
  - destruct (bool_decide_reflect (k0 = k)) as [->|Hne]; simpl.
    + case_bool_decide; done.
    + rewrite IH. repeat case_bool_decide; congruence.
Qed.

Lemma Map_get_Some_keys m k :
  is_Some (Js.Map_get m k) <-> k ∈ Js.Map_keys m.
Proof.
  unfold Js.Map_keys. induction m as [|[k0 v0] m IH]; simpl.
  - split; [intros [? ?]; done | intros H; inversion H].
  - rewrite elem_of_cons. case_bool_decide as Hk; subst.
    + split; eauto.
    + rewrite IH. split; [by right | intros [Heq | Hin]; [by subst | done]].
Qed.

Lemma Map_get_None_keys m k :
  Js.Map_get m k = None <-> k ∉ Js.Map_keys m.
Proof. rewrite <- Map_get_Some_keys, eq_None_not_Some. done. Qed.

Lemma Map_keys_set_present m k v :
  is_Some (Js.Map_get m k) ->
  Js.Map_keys (Js.Map_set m k v) = Js.Map_keys m.
Proof.
  unfold Js.Map_keys. induction m as [|[k0 v0] m IH]; cbn [Js.Map_set Js.Map_get].
  - intros [? ?]; done.
  - case_bool_decide; rewrite !fmap_cons; [done|].
    intros Hs. f_equal. by apply IH.
Qed.

Lemma Map_keys_set_absent m k v :
  Js.Map_get m k = None ->
  Js.Map_keys (Js.Map_set m k v) = Js.Map_keys m ++ [k].
Proof.
  unfold Js.Map_keys.
  induction m as [|[k0 v0] m IH]; cbn [Js.Map_set Js.Map_get]; [done|].
  case_bool_decide; rewrite !fmap_cons; [done|].
  intros Hs. cbn [app]. f_equal. by apply IH.
Qed.

Lemma Map_set_NoDup m k v :
  NoDup (Js.Map_keys m) -> NoDup (Js.Map_keys (Js.Map_set m k v)).
Proof.
  intros Hnd. destruct (Js.Map_get m k) eqn:E.
  - rewrite Map_keys_set_present; eauto.
  - rewrite Map_keys_set_absent by done.
    apply NoDup_app. split_and!; [done| |apply NoDup_singleton].
    intros x Hx ->%list_elem_of_singleton.
    by apply Map_get_None_keys in E.
Qed.
End MapLemmas.

(** ** What ingestion does to one key of the map *)

Section LoadLemmas.
Implicit Types (t : list (string * RegionData)) (r : string).

Lemma appendServiceIds_nil rd : appendServiceIds [] rd = rd.
Proof. destruct rd; unfold appendServiceIds; simpl. by rewrite app_nil_r. Qed.

Lemma appendServiceIds_app a b rd :
  appendServiceIds b (appendServiceIds a rd) = appendServiceIds (a ++ b) rd.
Proof. unfold appendServiceIds; simpl. by rewrite app_assoc. Qed.

Lemma fmap_appendServiceIds_nil (o : option RegionData) :
  appendServiceIds [] <$> o = o.
Proof. destruct o; simpl; by rewrite ?appendServiceIds_nil. Qed.

Lemma fmap_appendServiceIds_app a b (o : option RegionData) :
  appendServiceIds b <$> (appendServiceIds a <$> o) =
  appendServiceIds (a ++ b) <$> o.
Proof. destruct o; simpl; by rewrite ?appendServiceIds_app. Qed.

Lemma loadEndpoint_get service t e r :
  Js.Map_get (loadEndpoint service t e) r =
  appendServiceIds
    (if bool_decide (ServiceEndpoint_regionId e = r)
     then [Service_id service] else []) <$> Js.Map_get t r.
Proof.
  unfold loadEndpoint.
  destruct (Js.Map_get t (ServiceEndpoint_regionId e)) as [rd|] eqn:E.
  - rewrite Map_get_set. case_bool_decide as Hr; subst.
    + by rewrite E.
    + by rewrite fmap_appendServiceIds_nil.
  - case_bool_decide as Hr; subst.
    + by rewrite E.
    + by rewrite fmap_appendServiceIds_nil.
Qed.

Lemma loadEndpoints_get service es t r :
  Js.Map_get (fold_left (loadEndpoint service) es t) r =
  appendServiceIds
    ((fun _ => Service_id service) <$>
       filter (fun e => ServiceEndpoint_regionId e = r) es)
    <$> Js.Map_get t r.
Proof.
  revert t. induction es as [|e es IH]; intros t; simpl.
  - by rewrite fmap_appendServiceIds_nil.
  - rewrite IH, loadEndpoint_get, fmap_appendServiceIds_app, filter_cons.
    case_bool_decide as Hr; case_decide; try done.
Qed.

Lemma loadService_get t service r :
  Js.Map_get (loadService t service) r =
  appendServiceIds (serviceHits service r) <$> Js.Map_get t r.
Proof. apply loadEndpoints_get. Qed.

Lemma loadServices_get ss t r :
  Js.Map_get (fold_left loadService ss t) r =
  appendServiceIds (servicesHits ss r) <$> Js.Map_get t r.
Proof.
  unfold servicesHits. revert t.
  induction ss as [|s ss IH]; intros t; simpl.
  - by rewrite fmap_appendServiceIds_nil.
  - by rewrite IH, loadService_get, fmap_appendServiceIds_app.
Qed.

Lemma setRegion_get part t reg r :
  Js.Map_get (setRegion part t reg) r =
  if bool_decide (Region_id reg = r) then Some (freshRecord part reg)
  else Js.Map_get t r.
Proof. unfold setRegion. by rewrite Map_get_set. Qed.

Lemma setRegions_get part regs t r :
  Js.Map_get (fold_left (setRegion part) regs t) r =
  match last (filter (fun reg => Region_id reg = r) regs) with
  | Some reg => Some (freshRecord part reg)
  | None => Js.Map_get t r
  end.
Proof.
  revert t. induction regs as [|reg regs IH]; intros t; simpl; [done|].
  rewrite IH, setRegion_get, filter_cons.
  case_bool_decide as Hr; case_decide; try done.
  rewrite last_cons.
  by destruct (last (filter (fun reg0 => Region_id reg0 = r) regs)).
Qed.

(** One partition: the regions it declares are reset, then the ids of its
    services are appended to whatever record the key has. *)
Lemma loadPartition_get t part r :
  Js.Map_get (loadPartition t part) r =
  appendServiceIds (servicesHits (Partition_services part) r) <$>
    match declaredRegion part r with
    | Some reg => Some (freshRecord part reg)
    | None => Js.Map_get t r
    end.
Proof. unfold loadPartition. by rewrite loadServices_get, setRegions_get. Qed.

Lemma declaredRegion_declares part r :
  is_Some (declaredRegion part r) <-> declares part r.
Proof.
  unfold declaredRegion, declares. rewrite list_elem_of_fmap.
  split.
  - intros [reg Hreg]. apply last_Some_elem_of in Hreg.
    apply list_elem_of_filter in Hreg as [? ?]. eauto.
  - intros (reg & -> & Hin).
    destruct (last _) eqn:E; [eauto|].
    apply last_None in E.
    assert (reg ∈ filter (fun reg0 => Region_id reg0 = Region_id reg)
              (Partition_regions part)) as Hf
      by (by apply list_elem_of_filter).
    rewrite E in Hf. inversion Hf.
Qed.

Lemma declaredRegion_None part r :
  declaredRegion part r = None <-> ~ declares part r.
Proof. rewrite <- declaredRegion_declares, eq_None_not_Some. done. Qed.

(** A key no partition declares keeps its record and gains the ids of the
    services that target it. *)
Lemma loadTable_get_undeclared ps t r :
  (forall part, part ∈ ps -> ~ declares part r) ->
  Js.Map_get (loadTable ps t) r =
  appendServiceIds (manifestHits ps r) <$> Js.Map_get t r.
Proof.
  unfold loadTable, manifestHits. revert t.
  induction ps as [|part ps IH]; intros t Hnone; simpl.
  - by rewrite fmap_appendServiceIds_nil.
  - rewrite IH by (intros ? ?; apply Hnone; by right).
    rewrite loadPartition_get.
    assert (declaredRegion part r = None) as ->
      by (apply declaredRegion_None, Hnone; by left).
    by rewrite fmap_appendServiceIds_app.
Qed.

(** A key that [part] declares last gets the record of [part], whatever
    the map held before. *)
Lemma loadTable_get_declared pre part post reg t r :
  declaredRegion part r = Some reg ->
  (forall q, q ∈ post -> ~ declares q r) ->
  Js.Map_get (loadTable (pre ++ part :: post) t) r =
  Some (appendServiceIds (manifestHits (part :: post) r)
          (freshRecord part reg)).
Proof.
  intros Hreg Hpost. unfold loadTable.
  rewrite fold_left_app. simpl.
  fold (loadTable post (loadPartition (fold_left loadPartition pre t) part)).
  rewrite loadTable_get_undeclared by done.
  rewrite loadPartition_get, Hreg. simpl.
  rewrite appendServiceIds_app. done.
Qed.

(** Either no partition declares [r], or some partition is the last one
    to do so. *)
Lemma last_declaring ps r :
  (forall part, part ∈ ps -> ~ declares part r) \/
  exists pre part post reg,
    ps = pre ++ part :: post /\ declaredRegion part r = Some reg /\
    forall q, q ∈ post -> ~ declares q r.
Proof.
  induction ps as [|part ps IH].
  - left. intros ? H; inversion H.
  - destruct IH as [Hnone|(pre & q & post & reg & -> & Hreg & Hpost)].
    + destruct (declaredRegion part r) as [reg|] eqn:E.
      * right. exists [], part, ps, reg. done.
      * left. intros q [->|Hq]%elem_of_cons; [|by apply Hnone].
        by apply declaredRegion_None.
    + right. exists (part :: pre), q, post, reg. done.
Qed.
End LoadLemmas.

(** ** Membership queries *)

Section QueryLemmas.
Implicit Types (p : RegionProvider) (s r : string).

Lemma Array_find_eq (l : list string) s :
  Js.Array_find (fun x => bool_decide (x = s)) l =
  if bool_decide (s ∈ l) then Some s else None.
Proof.
  induction l as [|x l IH]; simpl.
  { done. }
  destruct (bool_decide_reflect (x = s)) as [->|Hx].
  - rewrite bool_decide_eq_true_2; [done | by left].
  - rewrite IH. destruct (bool_decide_reflect (s ∈ l)) as [Hin|Hin].
    + rewrite bool_decide_eq_true_2; [done | by right].
    + rewrite bool_decide_eq_false_2; [done|].
      intros [->|?]%elem_of_cons; done.
Qed.

Lemma truthy_nonempty s : Js.truthy s = true <-> s <> "".
Proof. destruct s; simpl; split; congruence. Qed.

(** For a non-empty id the query is membership in the record's list. *)
Lemma isServiceInRegion_true_iff p s r :
  isServiceInRegion p s r = true <->
  s <> "" /\ exists rd, Js.Map_get (regionData p) r = Some rd /\ s ∈ serviceIds rd.
Proof.
  unfold isServiceInRegion. simpl.
  destruct (Js.Map_get (regionData p) r) as [rd|]; simpl.
  - rewrite Array_find_eq. case_bool_decide as Hin; simpl.
    + rewrite truthy_nonempty.
      split; [intros ?; split; [done | eauto] | by intros [? _]].
    + split; [done|]. intros (_ & rd' & [= <-] & ?). done.
  - split; [done|]. intros (_ & rd' & ? & _). done.
Qed.

Lemma getPartitionId_fst p r :
  (getPartitionId p r).1 = partitionId <$> Js.Map_get (regionData p) r.
Proof.
  unfold getPartitionId, when_, dbind, dret, emit.
  destruct (Js.Map_get (regionData p) r) as [rd|]; simpl; [|done].
  by destruct (Js.truthy (partitionId rd)).
Qed.

Lemma getDnsSuffixForRegion_fst p r :
  (getDnsSuffixForRegion p r).1 = dnsSuffix <$> Js.Map_get (regionData p) r.
Proof.
  unfold getDnsSuffixForRegion, when_, dbind, dret, emit.
  destruct (Js.Map_get (regionData p) r) as [rd|]; simpl; [|done].
  by destruct (Js.truthy (dnsSuffix rd)).
Qed.
End QueryLemmas.

(** C4, at the input where the code departs from it: the record of
    "us-east-1" exists and its service list contains the empty id, and
    [isServiceInRegion] still answers [false], because [find] returns the
    matching element and the empty string is falsy. *)
Theorem isServiceInRegion_misses_blank_id :
  let p := new_RegionProvider blankServiceEndpoints emptyGlobalState noCredentials in
  (exists rd, Js.Map_get (regionData p) "us-east-1" = Some rd /\ "" ∈ serviceIds rd)
  /\ isServiceInRegion p "" "us-east-1" = false.
Proof.
  split; [|reflexivity].
  eexists. split; [reflexivity|]. simpl. by left.
Qed.

(** C9: a region id that has a record yields the stored partition id and
    DNS suffix as present values, the empty string included; the result is
    absent exactly when the region id has no record. *)
Theorem stored_strings_returned_as_is (p : RegionProvider) (r : string) :
  (forall rd, Js.Map_get (regionData p) r = Some rd ->
     (getPartitionId p r).1 = Some (partitionId rd) /\
     (getDnsSuffixForRegion p r).1 = Some (dnsSuffix rd))
  /\ ((getPartitionId p r).1 = None <-> Js.Map_get (regionData p) r = None)
  /\ ((getDnsSuffixForRegion p r).1 = None <-> Js.Map_get (regionData p) r = None).
Proof.
  rewrite getPartitionId_fst, getDnsSuffixForRegion_fst.
  destruct (Js.Map_get (regionData p) r) as [rd|]; simpl.
  - split_and!; [by intros ? [= <-] | done | done].
  - split_and!; done.
Qed.

Lemma stored_strings_returned_as_is_witness :
  let p := new_RegionProvider blankPartitionEndpoints emptyGlobalState noCredentials in
  (getPartitionId p "us-east-1").1 = Some "" /\
  (getDnsSuffixForRegion p "us-east-1").1 = Some "".
Proof.
  intros p.
  destruct (stored_strings_returned_as_is p "us-east-1") as [H _].
  apply (H (freshRecord {| Partition_dnsSuffix := ""; Partition_id := "";
                           Partition_regions := [usEast1];
                           Partition_services := [] |} usEast1)).
  reflexivity.
Defined.

(** C8: [setLastTouchedRegion(undefined)] leaves the provider as it was, so
    the last-touched region keeps its value; after
    [setLastTouchedRegion("eu-central-1")] it is still "eu-central-1". *)
Theorem setLastTouchedRegion_undefined_noop (p : RegionProvider) :
  setLastTouchedRegion p None = p
  /\ lastTouchedRegion
       (setLastTouchedRegion (setLastTouchedRegion p (Some "eu-central-1")) None)
     = Some "eu-central-1".
Proof. split; reflexivity. Qed.

(** C10: the state reported for suggestion [i].  A mapped state among
    'Empty', 'Filter' and 'Discard' is returned as it is; otherwise, when a
    map is given and its value at [i] is not 'Showed' (no entry included),
    the state is 'Unseen', whatever [acceptIndex] is; otherwise the state is
    'Reject' when [acceptIndex] is -1, else 'Accept' when [i] is
    [acceptIndex], else 'Ignore'. *)
Theorem getSuggestionState_cases (i acceptIndex : Z)
    (states : option (gmap Z string)) :
  let state := states ≫= (fun m => m !! i) in
  (forall s, state = Some s -> s ∈ ["Empty"; "Filter"; "Discard"] ->
     getSuggestionState i acceptIndex states = s)
  /\ ((forall s, state = Some s -> s ∉ ["Empty"; "Filter"; "Discard"]) ->
      states <> None -> state <> Some "Showed" ->
      getSuggestionState i acceptIndex states = "Unseen")
  /\ (states = None \/ state = Some "Showed" ->
      (acceptIndex = (-1)%Z ->
         getSuggestionState i acceptIndex states = "Reject")
      /\ (acceptIndex <> (-1)%Z -> i = acceptIndex ->
            getSuggestionState i acceptIndex states = "Accept")
      /\ (acceptIndex <> (-1)%Z -> i <> acceptIndex ->
            getSuggestionState i acceptIndex states = "Ignore")).
Proof.
  intros state. unfold getSuggestionState. fold state.
  split_and!.
  - intros s Hs Hin. rewrite Hs. unfold Array_includes.
    rewrite (bool_decide_eq_true_2 _ Hin), andb_true_r.
    assert (Js.truthy s = true) as ->; [|done].
    apply truthy_nonempty. intros ->.
    repeat (apply elem_of_cons in Hin as [Hin|Hin]; [discriminate|]).
    inversion Hin.
  - intros Hnot Hmap Hshowed.
    rewrite (bool_decide_eq_true_2 _ Hmap), (bool_decide_eq_true_2 _ Hshowed).
    simpl. destruct state as [s|]; [|done].
    unfold Array_includes.
    rewrite (bool_decide_eq_false_2 _ (Hnot s eq_refl)), andb_false_r. done.
  - intros Hrest.
    assert ((bool_decide (states <> None) && bool_decide (state <> Some "Showed"))
            = false) as Hguard.
    { destruct Hrest as [->|Hs].
      - rewrite bool_decide_eq_false_2; [done | by intros []].
      - rewrite (bool_decide_eq_false_2 (state <> _)), andb_false_r; [done|].
        by intros []. }
    rewrite Hguard.
    assert (match state with
            | Some s =>
                if Js.truthy s && Array_includes ["Empty"; "Filter"; "Discard"] s
                then s
                else if bool_decide (acceptIndex = (-1)%Z) then "Reject"
                     else if bool_decide (i = acceptIndex) then "Accept"
                          else "Ignore"
            | None =>
                if bool_decide (acceptIndex = (-1)%Z) then "Reject"
                else if bool_decide (i = acceptIndex) then "Accept" else "Ignore"
            end =
            if bool_decide (acceptIndex = (-1)%Z) then "Reject"
            else if bool_decide (i = acceptIndex) then "Accept" else "Ignore")
      as ->.
    { destruct Hrest as [->|Hs].
      - done.
      - rewrite Hs. done. }
    split_and!.
    + intros ->. done.
    + intros Hne ->. rewrite (bool_decide_eq_false_2 _ Hne).
      by rewrite bool_decide_eq_true_2.
    + intros Hne Hi. by rewrite (bool_decide_eq_false_2 _ Hne),
        (bool_decide_eq_false_2 _ Hi).
Qed.

Lemma getSuggestionState_cases_witness :
  getSuggestionState 2 2 (Some {[ 2%Z := "Discard" ]}) = "Discard"
  /\ getSuggestionState 2 2 (Some {[ 3%Z := "Showed" ]}) = "Unseen"
  /\ getSuggestionState 2 2 (Some {[ 2%Z := "Showed" ]}) = "Accept"
  /\ getSuggestionState (-1) (-1) None = "Reject"
  /\ getSuggestionState 1 2 None = "Ignore".
Proof.
  split_and!.
  - apply (getSuggestionState_cases 2 2 (Some {[ 2%Z := "Discard" ]}));
      [reflexivity | by right; right; left].
  - apply (getSuggestionState_cases 2 2 (Some {[ 3%Z := "Showed" ]}));
      [intros s Hs; vm_compute in Hs; discriminate | discriminate | discriminate].
  - apply (getSuggestionState_cases 2 2 (Some {[ 2%Z := "Showed" ]}));
      [right; reflexivity | lia | reflexivity].
  - apply (getSuggestionState_cases (-1) (-1) None); [by left | reflexivity].
  - apply (getSuggestionState_cases 1 2 None); [by left | lia | lia].
Defined.

(** ** Explorer regions *)

Section SetLemmas.
Implicit Types (s l : list string) (x y : string).

Lemma Set_add_elem s x y : y ∈ Js.Set_add s x <-> y ∈ s \/ y = x.
Proof.
  unfold Js.Set_add. case_bool_decide as Hx.
  - split; [by left | intros [?| ->]; done].
  - rewrite elem_of_app, list_elem_of_singleton. done.
Qed.

Lemma Set_add_NoDup s x : NoDup s -> NoDup (Js.Set_add s x).
Proof.
  unfold Js.Set_add. intros Hs. case_bool_decide as Hx; [done|].
  apply NoDup_app. split_and!; [done| |apply NoDup_singleton].
  by intros y Hy ->%list_elem_of_singleton.
Qed.

Lemma fold_Set_add l s :
  NoDup s ->
  NoDup (fold_left Js.Set_add l s)
  /\ forall y, y ∈ fold_left Js.Set_add l s <-> y ∈ s \/ y ∈ l.
Proof.
  revert s. induction l as [|x l IH]; intros s Hs; simpl.
  - split; [done|]. intros y. split; [by left | intros [?|H]; [done | inversion H]].
  - destruct (IH (Js.Set_add s x) (Set_add_NoDup s x Hs)) as [Hnd Hel].
    split; [done|]. intros y. rewrite Hel, Set_add_elem, elem_of_cons.
    tauto.
Qed.

Lemma new_Set_NoDup l : NoDup (Js.new_Set l).
Proof. apply fold_Set_add, NoDup_nil_2. Qed.

Lemma new_Set_elem l y : y ∈ Js.new_Set l <-> y ∈ l.
Proof.
  unfold Js.new_Set.
  destruct (fold_Set_add l [] (NoDup_nil_2)) as [_ ->].
  split; [intros [H|?]; [inversion H | done] | by right].
Qed.
End SetLemmas.

(** C7: [updateExplorerRegions] persists its argument with the duplicates
    collapsed, and [getExplorerRegions] then returns that list: it has no
    duplicates and the same elements as the argument. *)
Theorem updateExplorerRegions_collapses_duplicates (p : RegionProvider)
    (regions : list string) :
  let p' := updateExplorerRegions p regions in
  gs_regionSetting (globalState p') = Some (getExplorerRegions p')
  /\ NoDup (getExplorerRegions p')
  /\ (forall x, x ∈ getExplorerRegions p' <-> x ∈ regions)
  /\ getExplorerRegions
       (updateExplorerRegions p ["us-east-1"; "us-east-1"; "eu-west-1"])
     = ["us-east-1"; "eu-west-1"].
Proof.
  simpl. unfold getExplorerRegions, Js.Array_from. simpl.
  split_and!; [done | apply new_Set_NoDup | apply new_Set_elem | reflexivity].
Qed.

Lemma updateExplorerRegions_collapses_duplicates_witness :
  "eu-west-1" ∈ getExplorerRegions
    (updateExplorerRegions sampleProvider ["us-east-1"; "us-east-1"; "eu-west-1"]).
Proof.
  apply (updateExplorerRegions_collapses_duplicates sampleProvider
           ["us-east-1"; "us-east-1"; "eu-west-1"]).
  by right; right; left.
Defined.

(** ** The default-region heuristic *)

(** C3, as stated, at a tree node whose region code is the empty string:
    the code is not returned, the single explorer region is. *)
Lemma guessDefaultRegion_skips_blank_code :
  regionCode blankNode = Some ""
  /\ guessDefaultRegion
       (new_RegionProvider sampleEndpoints pinnedEuWest1 noCredentials)
       (Some blankNode) = "eu-west-1".
Proof. split; reflexivity. Qed.

(** C3, amended: the precedence of [guessDefaultRegion].  A non-empty
    region code of the node wins; else the single explorer region; else the
    last-touched region; else the non-empty id of the last wizard response;
    else the credential default region, or "us-east-1" without one. *)
Theorem guessDefaultRegion_precedence (p : RegionProvider)
    (node : option AWSTreeNodeBase) :
  (forall n c, node = Some n -> regionCode n = Some c -> c <> "" ->
     guessDefaultRegion p node = c)
  /\ (noRegionCode node -> forall r, getExplorerRegions p = [r] ->
      guessDefaultRegion p node = r)
  /\ (noRegionCode node -> length (getExplorerRegions p) <> 1 ->
      forall r, lastTouchedRegion p = Some r -> r <> "" ->
      guessDefaultRegion p node = r)
  /\ (noRegionCode node -> length (getExplorerRegions p) <> 1 -> noLastTouched p ->
      forall reg, gs_lastSelectedRegion (globalState p) = Some reg ->
      Region_id reg <> "" ->
      guessDefaultRegion p node = Region_id reg)
  /\ (noRegionCode node -> length (getExplorerRegions p) <> 1 -> noLastTouched p ->
      (forall reg, gs_lastSelectedRegion (globalState p) = Some reg ->
         Region_id reg = "") ->
      guessDefaultRegion p node =
        match getCredentialDefaultRegion (awsContext p) with
        | Some r => r
        | None => "us-east-1"
        end).
Proof.
  assert (forall (o : option string) c, o = Some c -> c <> "" ->
            Js.if_truthy o = Some c) as Htruthy.
  { intros o c -> Hc. simpl. by apply truthy_nonempty in Hc as ->. }
  assert (forall (o : option string), (forall c, o = Some c -> c = "") ->
            Js.if_truthy o = None) as Hfalsy.
  { intros [c|] Hc; [|done]. by rewrite (Hc c eq_refl). }
  assert (noRegionCode node -> Js.if_truthy (node ≫= regionCode) = None) as Hnode.
  { intros Hno. apply Hfalsy. intros c Hc.
    destruct node as [n|]; [|done]. by apply (Hno n c). }
  assert (length (getExplorerRegions p) <> 1 ->
          forall A (a : string -> A) (b : A),
            match getExplorerRegions p with [r] => a r | _ => b end = b)
    as Hexp.
  { intros Hlen A a b. by destruct (getExplorerRegions p) as [|? [|? ?]]. }
  assert (noLastTouched p -> Js.if_truthy (lastTouchedRegion p) = None) as Htouched.
  { intros [-> | ->]; done. }
  unfold guessDefaultRegion. split_and!.
  - intros n c -> Hc Hne. simpl. by rewrite (Htruthy _ _ Hc Hne).
  - intros Hno r Hr. by rewrite (Hnode Hno), Hr.
  - intros Hno Hlen r Hr Hne.
    by rewrite (Hnode Hno), (Hexp Hlen), (Htruthy _ _ Hr Hne).
  - intros Hno Hlen Hnt reg Hreg Hne.
    rewrite (Hnode Hno), (Hexp Hlen), (Htouched Hnt), Hreg. simpl.
    by apply truthy_nonempty in Hne as ->.
  - intros Hno Hlen Hnt Hwiz.
    rewrite (Hnode Hno), (Hexp Hlen), (Htouched Hnt).
    rewrite Hfalsy; [done|].
    intros c Hc. destruct (gs_lastSelectedRegion (globalState p)) as [reg|];
      [|done].
    injection Hc as <-. by apply Hwiz.
Qed.

Lemma guessDefaultRegion_precedence_witness :
  guessDefaultRegion sampleProvider (Some {| regionCode := Some "ap-south-1" |})
    = "ap-south-1"
  /\ guessDefaultRegion sampleProvider None = "us-east-1".
Proof.
  split.
  - destruct (guessDefaultRegion_precedence sampleProvider
                (Some {| regionCode := Some "ap-south-1" |})) as [H _].
    apply (H {| regionCode := Some "ap-south-1" |} "ap-south-1");
      [reflexivity | reflexivity | discriminate].
  - destruct (guessDefaultRegion_precedence sampleProvider None)
      as (_ & _ & _ & _ & H).
    apply H.
    + intros n c Hn. discriminate Hn.
    + simpl. lia.
    + by left.
    + intros reg Hreg. discriminate Hreg.
Defined.

(** ** A failed load *)

(** C5: when the load of the endpoints provider rejects, the continuation
    leaves the instance as it was, so [getRegions] and [isServiceInRegion]
    answer as before; the failure is logged and shown, and the resulting
    promise is fulfilled: nothing is thrown to the caller. *)
Theorem rejected_load_keeps_index (host : Host) (err : string)
    (instance : RegionProvider) :
  let out := settleLoad host (Rejected err) instance in
  out.1.1 = Fulfilled tt
  /\ out.1.2 = instance
  /\ regionData out.1.2 = regionData instance
  /\ (forall partitionId, getRegions out.1.2 partitionId = getRegions instance partitionId)
  /\ (forall serviceId regionId,
        isServiceInRegion out.1.2 serviceId regionId =
        isServiceInRegion instance serviceId regionId)
  /\ (exists message,
        out.2 = [LogError "Failure while loading Endpoints Manifest: %s" err;
                 ShowErrorMessage message])
  /\ (fromEndpointsProvider host (Rejected err)).1.2 =
       fromEndpointsProvider_instance host.
Proof.
  simpl. split_and!; try reflexivity. eexists. reflexivity.
Qed.

(** ** The index built from a manifest *)

Section LoadedIndex.
Implicit Types (ps : list Partition) (s r : string).

Lemma manifestHits_elem ps s r :
  s ∈ manifestHits ps r <-> declaresEndpoint ps s r.
Proof.
  unfold manifestHits, servicesHits, serviceHits, declaresEndpoint.
  rewrite list_elem_of_bind. split.
  - intros (part & Hs & Hpart).
    apply list_elem_of_bind in Hs as (service & Hs & Hservice).
    apply list_elem_of_fmap in Hs as (endpoint & -> & He).
    apply list_elem_of_filter in He as [Hr He].
    by exists part, service, endpoint.
  - intros (part & service & endpoint & Hpart & Hservice & <- & He & Hr).
    exists part. split; [|done].
    apply list_elem_of_bind. exists service. split; [|done].
    apply list_elem_of_fmap. exists endpoint. split; [done|].
    by apply list_elem_of_filter.
Qed.

Lemma declaresEndpoint_weaken pre ps s r :
  declaresEndpoint ps s r -> declaresEndpoint (pre ++ ps) s r.
Proof.
  intros (part & service & endpoint & Hpart & H).
  exists part, service, endpoint. split; [|done].
  apply elem_of_app. by right.
Qed.

Lemma snoc_in_suffix {A} (l l' l'' : list A) (x y : A) :
  l ++ [x] = l' ++ y :: l'' -> x ∈ y :: l''.
Proof.
  intros Heq. apply (f_equal last) in Heq.
  rewrite last_snoc, last_app in Heq.
  destruct (last (y :: l'')) as [z|] eqn:E.
  - injection Heq as ->. by apply last_Some_elem_of.
  - by apply last_None in E.
Qed.

(** The record of [r] in a freshly loaded index. *)
Lemma fresh_load_get ps r :
  (Js.Map_get (loadTable ps []) r = None /\
   forall part, part ∈ ps -> ~ declares part r)
  \/ exists pre part post reg,
       ps = pre ++ part :: post /\ declaredRegion part r = Some reg /\
       (forall q, q ∈ post -> ~ declares q r) /\
       Js.Map_get (loadTable ps []) r =
         Some (appendServiceIds (manifestHits (part :: post) r)
                 (freshRecord part reg)).
Proof.
  destruct (last_declaring ps r)
    as [Hnone|(pre & part & post & reg & -> & Hreg & Hpost)].
  - left. split; [|done]. by rewrite loadTable_get_undeclared.
  - right. exists pre, part, post, reg. split_and!; try done.
    by apply loadTable_get_declared.
Qed.
End LoadedIndex.

(** C2: in an index built from a manifest, a region id that has a record
    was declared by a partition of the manifest, the last one to declare
    it; [getPartitionId] returns the id of that partition and
    [getDnsSuffixForRegion] its DNS suffix.  For a region id without a
    record, in any index, both return [undefined] after logging a warning. *)
Theorem loaded_region_partition (endpoints : Endpoints) (gs : GlobalState)
    (ctx : AwsContext) (r : string) :
  let p := new_RegionProvider endpoints gs ctx in
  (is_Some (Js.Map_get (regionData p) r) ->
   exists pre part post,
     partitions endpoints = pre ++ part :: post /\
     declares part r /\ (forall q, q ∈ post -> ~ declares q r) /\
     (getPartitionId p r).1 = Some (Partition_id part) /\
     (getDnsSuffixForRegion p r).1 = Some (Partition_dnsSuffix part))
  /\ (forall q : RegionProvider,
        Js.Map_get (regionData q) r = None ->
        getPartitionId q r =
          (None, [LogWarn ("Unable to determine the Partition that Region "
                             +:+ r +:+ " belongs to")]) /\
        getDnsSuffixForRegion q r =
          (None, [LogWarn ("Unable to find region data for: " +:+ r)])).
Proof.
  intros p. split.
  - intros Hsome.
    destruct (fresh_load_get (partitions endpoints) r)
      as [[Hnone _]|(pre & part & post & reg & Hsplit & Hreg & Hpost & Hget)].
    + subst p. simpl in Hsome. rewrite Hnone in Hsome. by destruct Hsome.
    + exists pre, part, post. split_and!; try done.
      * apply declaredRegion_declares. eauto.
      * rewrite getPartitionId_fst. subst p. simpl. by rewrite Hget.
      * rewrite getDnsSuffixForRegion_fst. subst p. simpl. by rewrite Hget.
  - intros q Hnone. unfold getPartitionId, getDnsSuffixForRegion.
    rewrite Hnone. done.
Qed.

Lemma loaded_region_partition_witness :
  exists pre part post,
    partitions sampleEndpoints = pre ++ part :: post /\
    declares part "cn-north-1" /\
    (forall q, q ∈ post -> ~ declares q "cn-north-1") /\
    (getPartitionId sampleProvider "cn-north-1").1 = Some (Partition_id part) /\
    (getDnsSuffixForRegion sampleProvider "cn-north-1").1 =
      Some (Partition_dnsSuffix part).
Proof.
  apply (loaded_region_partition sampleEndpoints emptyGlobalState noCredentials
           "cn-north-1").
  eexists. reflexivity.
Defined.

(** C1, as stated, at a manifest whose only endpoint targets a region that
    no partition declares: the endpoint is declared, the query is false. *)
Lemma dangling_endpoint_not_in_region :
  declaresEndpoint (partitions danglingEndpoints) "s3" "us-east-1"
  /\ isServiceInRegion
       (new_RegionProvider danglingEndpoints emptyGlobalState noCredentials)
       "s3" "us-east-1" = false.
Proof.
  split; [|reflexivity].
  eexists _, (svc "s3" ["us-east-1"]), {| ServiceEndpoint_regionId := "us-east-1" |}.
  split_and!; try reflexivity; by left.
Qed.

(** C1, amended: in an index built from a manifest, a service with a
    non-empty id is in a region when one of its endpoints targets the
    region, the region is declared by the partition of the service or by an
    earlier one, and no later partition declares it again; and a service is
    in no region that none of its endpoints targets. *)
Theorem declared_endpoint_in_region (endpoints : Endpoints) (gs : GlobalState)
    (ctx : AwsContext) :
  let p := new_RegionProvider endpoints gs ctx in
  (forall pre part post service endpoint,
     partitions endpoints = pre ++ part :: post ->
     service ∈ Partition_services part ->
     endpoint ∈ Service_endpoints service ->
     Service_id service <> "" ->
     (exists q, q ∈ pre ++ [part] /\
                declares q (ServiceEndpoint_regionId endpoint)) ->
     (forall q, q ∈ post -> ~ declares q (ServiceEndpoint_regionId endpoint)) ->
     isServiceInRegion p (Service_id service)
       (ServiceEndpoint_regionId endpoint) = true)
  /\ (forall s r,
        ~ declaresEndpoint (partitions endpoints) s r ->
        isServiceInRegion p s r = false).
Proof.
  intros p. split.
  - intros pre part post service endpoint Hsplit Hservice Hendpoint Hid
      (q & Hq & Hdecl) Hpost.
    set (r := ServiceEndpoint_regionId endpoint) in *.
    destruct (last_declaring (pre ++ [part]) r)
      as [Hnone|(pre' & q0 & post' & reg & Heq & Hreg & Hpost')].
    { by destruct (Hnone q Hq). }
    assert (partitions endpoints = pre' ++ q0 :: (post' ++ post)) as Hsplit'.
    { rewrite Hsplit. change (part :: post) with ([part] ++ post).
      by rewrite app_assoc, Heq, <- app_assoc. }
    apply isServiceInRegion_true_iff. split; [done|].
    eexists. split.
    + subst p. simpl. rewrite Hsplit'.
      apply (loadTable_get_declared pre' q0 (post' ++ post) reg); [done|].
      intros q' [?|?]%elem_of_app; auto.
    + unfold appendServiceIds, freshRecord. cbn [serviceIds app].
      apply manifestHits_elem.
      exists part, service, endpoint. split_and!; try done.
      change (q0 :: post' ++ post) with ((q0 :: post') ++ post).
      apply elem_of_app. left. by eapply snoc_in_suffix.
  - intros s r Hno.
    destruct (isServiceInRegion p s r) eqn:E; [|done].
    apply isServiceInRegion_true_iff in E as (_ & rd & Hget & Hin).
    subst p. simpl in Hget.
    destruct (fresh_load_get (partitions endpoints) r)
      as [[Hnone _]|(pre & part & post & reg & Hsplit & _ & _ & Hget')].
    + congruence.
    + rewrite Hget' in Hget. injection Hget as <-.
      unfold appendServiceIds, freshRecord in Hin. cbn [serviceIds app] in Hin.
      apply manifestHits_elem in Hin.
      destruct Hno. rewrite Hsplit. by apply declaresEndpoint_weaken.
Qed.

Lemma declared_endpoint_in_region_witness :
  isServiceInRegion sampleProvider "s3" "cn-north-1" = true.
Proof.
  destruct (declared_endpoint_in_region sampleEndpoints emptyGlobalState
              noCredentials) as [H _].
  apply (H [awsPartition] awsCnPartition [] (svc "s3" ["cn-north-1"])
           {| ServiceEndpoint_regionId := "cn-north-1" |}).
  - reflexivity.
  - by left.
  - by left.
  - discriminate.
  - exists awsCnPartition. split; [by right; left | by left].
  - intros q Hq. inversion Hq.
Defined.

(** ** Keys of the map during ingestion *)

Section LoadKeys.
Implicit Types (t : list (string * RegionData)) (ps : list Partition).

Lemma loadEndpoint_keys service t e :
  Js.Map_keys (loadEndpoint service t e) = Js.Map_keys t.
Proof.
  unfold loadEndpoint.
  destruct (Js.Map_get t (ServiceEndpoint_regionId e)) eqn:E; [|done].
  apply Map_keys_set_present. eauto.
Qed.

Lemma loadService_keys t service :
  Js.Map_keys (loadService t service) = Js.Map_keys t.
Proof.
  unfold loadService. revert t.
  induction (Service_endpoints service) as [|e es IH]; intros t; simpl;
    [done|].
  by rewrite IH, loadEndpoint_keys.
Qed.

Lemma loadServices_keys ss t :
  Js.Map_keys (fold_left loadService ss t) = Js.Map_keys t.
Proof.
  revert t. induction ss as [|s ss IH]; intros t; simpl; [done|].
  by rewrite IH, loadService_keys.
Qed.

Lemma setRegions_keys_present part regs t :
  (forall reg, reg ∈ regs -> Region_id reg ∈ Js.Map_keys t) ->
  Js.Map_keys (fold_left (setRegion part) regs t) = Js.Map_keys t.
Proof.
  revert t. induction regs as [|reg regs IH]; intros t Hin; simpl; [done|].
  assert (Js.Map_keys (setRegion part t reg) = Js.Map_keys t) as Hstep.
  { apply Map_keys_set_present, Map_get_Some_keys, Hin. by left. }
  rewrite IH, Hstep; [done|].
  intros reg' Hreg'. rewrite Hstep. apply Hin. by right.
Qed.

Lemma loadPartition_keys_present t part :
  (forall reg, reg ∈ Partition_regions part -> Region_id reg ∈ Js.Map_keys t) ->
  Js.Map_keys (loadPartition t part) = Js.Map_keys t.
Proof.
  intros Hin. unfold loadPartition.
  by rewrite loadServices_keys, setRegions_keys_present.
Qed.

(** Loading a manifest whose regions all have a record keeps the keys and
    their order. *)
Lemma loadTable_keys_present ps t :
  (forall part reg, part ∈ ps -> reg ∈ Partition_regions part ->
                    Region_id reg ∈ Js.Map_keys t) ->
  Js.Map_keys (loadTable ps t) = Js.Map_keys t.
Proof.
  unfold loadTable. revert t.
  induction ps as [|part ps IH]; intros t Hin; simpl; [done|].
  assert (Js.Map_keys (loadPartition t part) = Js.Map_keys t) as Hstep.
  { apply loadPartition_keys_present. intros reg. apply Hin. by left. }
  rewrite IH, Hstep; [done|].
  intros part' reg Hpart' Hreg. rewrite Hstep. eapply Hin; [by right|done].
Qed.

(** After a load every declared region has a record. *)
Lemma loadTable_declared_keys ps t part reg :
  part ∈ ps -> reg ∈ Partition_regions part ->
  Region_id reg ∈ Js.Map_keys (loadTable ps t).
Proof.
  intros Hpart Hreg. apply Map_get_Some_keys.
  destruct (last_declaring ps (Region_id reg))
    as [Hnone|(pre & q & post & reg' & -> & Hreg' & Hpost)].
  - destruct (Hnone part Hpart). unfold declares.
    apply list_elem_of_fmap. eauto.
  - erewrite loadTable_get_declared by done. eauto.
Qed.

Lemma setRegions_NoDup part regs t :
  NoDup (Js.Map_keys t) ->
  NoDup (Js.Map_keys (fold_left (setRegion part) regs t)).
Proof.
  revert t. induction regs as [|reg regs IH]; intros t Hnd; simpl; [done|].
  apply IH. by apply Map_set_NoDup.
Qed.

Lemma loadTable_NoDup ps t :
  NoDup (Js.Map_keys t) -> NoDup (Js.Map_keys (loadTable ps t)).
Proof.
  unfold loadTable. revert t.
  induction ps as [|part ps IH]; intros t Hnd; simpl; [done|].
  apply IH. unfold loadPartition.
  rewrite loadServices_keys. by apply setRegions_NoDup.
Qed.

(** The keys of a reachable provider are pairwise distinct, as those of a
    [Map] are, and its last-touched region is never the empty string. *)
Lemma reachable_invariant host p :
  reachable host p ->
  NoDup (Js.Map_keys (regionData p)) /\ lastTouchedRegion p <> Some "".
Proof.
  induction 1 as [endpoints gs ctx|endpoints p _ [IH1 IH2]
                 |loaded p _ [IH1 IH2]|r p _ [IH1 IH2]|regions p _ [IH1 IH2]].
  - split; [|done]. simpl. apply loadTable_NoDup, NoDup_nil_2.
  - split; [|done]. simpl. by apply loadTable_NoDup.
  - destruct loaded as [endpoints|err]; simpl; [|done].
    split; [|done]. apply loadTable_NoDup, NoDup_nil_2.
  - unfold setLastTouchedRegion.
    destruct r as [[|a r]|]; simpl; done.
  - done.
Qed.
End LoadKeys.

(** ** Loading the same manifest twice *)

Section Idempotence.
Implicit Types (t : list (string * RegionData)) (ps : list Partition).

Lemma sameRecord_refl rd : sameRecord rd rd.
Proof. by unfold sameRecord. Qed.

Lemma sameRecord_append_twice ids rd :
  sameRecord (appendServiceIds (ids ++ ids) rd) (appendServiceIds ids rd).
Proof.
  unfold sameRecord, appendServiceIds. simpl. split_and!; try done.
  intros x. rewrite !elem_of_app. tauto.
Qed.

(** Key by key, the second load changes nothing a query can see. *)
Lemma loadTable_twice_get ps t r :
  option_Forall2 sameRecord
    (Js.Map_get (loadTable ps (loadTable ps t)) r)
    (Js.Map_get (loadTable ps t) r).
Proof.
  destruct (last_declaring ps r)
    as [Hnone|(pre & part & post & reg & -> & Hreg & Hpost)].
  - rewrite !loadTable_get_undeclared by done.
    rewrite fmap_appendServiceIds_app.
    destruct (Js.Map_get t r) as [rd|]; simpl; constructor.
    apply sameRecord_append_twice.
  - erewrite !loadTable_get_declared by done.
    constructor. apply sameRecord_refl.
Qed.

Lemma loadTable_twice_keys ps t :
  Js.Map_keys (loadTable ps (loadTable ps t)) = Js.Map_keys (loadTable ps t).
Proof.
  apply loadTable_keys_present. intros part reg.
  apply loadTable_declared_keys.
Qed.

(** Maps with the same distinct keys and related records key by key are
    related entry by entry. *)
Lemma sameTable_of_keys t t' :
  NoDup (Js.Map_keys t) ->
  Js.Map_keys t = Js.Map_keys t' ->
  (forall k, option_Forall2 sameRecord (Js.Map_get t k) (Js.Map_get t' k)) ->
  sameTable t t'.
Proof.
  unfold sameTable, Js.Map_keys. revert t'.
  induction t as [|[k v] t IH]; intros [|[k' v'] t'] Hnd Hkeys Hget;
    try discriminate Hkeys; [constructor|].
  rewrite !fmap_cons in Hkeys. simpl in Hkeys.
  injection Hkeys as <- Hkeys.
  apply NoDup_cons in Hnd as [Hk Hnd].
  constructor.
  - split; [done|]. specialize (Hget k). simpl in Hget.
    rewrite !bool_decide_eq_true_2 in Hget by done.
    by inversion Hget.
  - apply IH; [done..|]. intros k0.
    destruct (decide (k = k0)) as [<-|Hne].
    + assert (Js.Map_get t k = None) as ->
        by (by apply Map_get_None_keys).
      assert (Js.Map_get t' k = None) as ->
        by (apply Map_get_None_keys; unfold Js.Map_keys; by rewrite <- Hkeys).
      constructor.
    + specialize (Hget k0). simpl in Hget.
      by rewrite !bool_decide_eq_false_2 in Hget by done.
Qed.

Lemma sameTable_regions t t' (pid : option string) :
  sameTable t t' ->
  region <$> filter (fun rd => Some (partitionId rd) = pid) (Js.Map_values t) =
  region <$> filter (fun rd => Some (partitionId rd) = pid) (Js.Map_values t').
Proof.
  unfold sameTable, Js.Map_values.
  induction 1 as [|[k a] [k' b] t t' [_ (_ & Hpid & Hregion & _)] _ IH];
    [done|].
  rewrite !fmap_cons, !filter_cons. simpl in *. rewrite Hpid.
  case_decide; [|done]. rewrite !fmap_cons. by f_equal.
Qed.

Lemma sameRecord_find (a b : option RegionData) s :
  option_Forall2 sameRecord a b ->
  a ≫= (fun rd => Js.Array_find (fun x => bool_decide (x = s)) (serviceIds rd)) =
  b ≫= (fun rd => Js.Array_find (fun x => bool_decide (x = s)) (serviceIds rd)).
Proof.
  intros [rd rd' (_ & _ & _ & Hin)|]; simpl; [|done].
  rewrite !Array_find_eq.
  by rewrite (bool_decide_ext _ _ (Hin s)).
Qed.

(** Providers whose maps are related answer every query alike. *)
Lemma sameTable_queries (p q : RegionProvider) :
  (forall k, option_Forall2 sameRecord
               (Js.Map_get (regionData p) k) (Js.Map_get (regionData q) k)) ->
  sameTable (regionData p) (regionData q) ->
  awsContext p = awsContext q ->
  (forall s r, isServiceInRegion p s r = isServiceInRegion q s r)
  /\ (forall r, getPartitionId p r = getPartitionId q r)
  /\ (forall r, getDnsSuffixForRegion p r = getDnsSuffixForRegion q r)
  /\ (forall pid, getRegions p pid = getRegions q pid).
Proof.
  intros Hget Htable Hctx.
  assert (forall r, getPartitionId p r = getPartitionId q r) as Hpartition.
  { intros r. unfold getPartitionId.
    destruct (Hget r) as [rd rd' (_ & Hpid & _)|]; simpl; [|done].
    by rewrite Hpid. }
  split_and!; [|done| |].
  - intros s r. unfold isServiceInRegion.
    by rewrite (sameRecord_find _ _ s (Hget r)).
  - intros r. unfold getDnsSuffixForRegion.
    destruct (Hget r) as [rd rd' (Hdns & _)|]; simpl; [|done].
    by rewrite Hdns.
  - intros pid. unfold getRegions, defaultPartitionId, defaultRegionId.
    rewrite Hctx. destruct pid as [pid|].
    + unfold dbind, dret. by rewrite (sameTable_regions _ _ _ Htable).
    + rewrite Hpartition. unfold dbind, dret.
      destruct (getPartitionId q _) as [o d].
      by rewrite (sameTable_regions _ _ _ Htable).
Qed.
End Idempotence.

(** C6: loading a manifest into a reachable provider and loading it again
    gives a provider that answers [isServiceInRegion], [getPartitionId],
    [getDnsSuffixForRegion] and [getRegions] as the provider does after the
    first load, on every input; the other fields are those of the first
    load. *)
Theorem loadFromEndpoints_idempotent (host : Host) (endpoints : Endpoints)
    (p : RegionProvider) :
  reachable host p ->
  let once := loadFromEndpoints endpoints p in
  let twice := loadFromEndpoints endpoints once in
  (forall s r, isServiceInRegion twice s r = isServiceInRegion once s r)
  /\ (forall r, getPartitionId twice r = getPartitionId once r)
  /\ (forall r, getDnsSuffixForRegion twice r = getDnsSuffixForRegion once r)
  /\ (forall pid, getRegions twice pid = getRegions once pid)
  /\ Js.Map_keys (regionData twice) = Js.Map_keys (regionData once)
  /\ lastTouchedRegion twice = lastTouchedRegion once
  /\ globalState twice = globalState once
  /\ onDidChangeFired twice = onDidChangeFired once.
Proof.
  intros Hreach once twice.
  assert (NoDup (Js.Map_keys (regionData twice))) as Hnd.
  { apply (reachable_invariant host). by do 2 apply reach_load. }
  pose proof (loadTable_twice_keys (partitions endpoints) (regionData p)) as Hkeys.
  pose proof (loadTable_twice_get (partitions endpoints) (regionData p)) as Hget.
  destruct (sameTable_queries twice once) as (H1 & H2 & H3 & H4); try done.
  by apply sameTable_of_keys.
Qed.

Lemma loadFromEndpoints_idempotent_witness :
  getRegions
    (loadFromEndpoints sampleEndpoints
       (loadFromEndpoints sampleEndpoints sampleProvider)) (Some "aws")
  = getRegions (loadFromEndpoints sampleEndpoints sampleProvider) (Some "aws").
Proof.
  apply (loadFromEndpoints_idempotent sampleHost sampleEndpoints sampleProvider).
  apply reach_new.
Defined.

(** ** Further properties of the region index *)

Section IndexOrder.
Implicit Types (t : list (string * RegionData)) (ps : list Partition).

Lemma Map_keys_set {V} (m : list (string * V)) k v :
  Js.Map_keys (Js.Map_set m k v) = Js.Set_add (Js.Map_keys m) k.
Proof.
  unfold Js.Set_add. destruct (Js.Map_get m k) as [v'|] eqn:E.
  - rewrite Map_keys_set_present by eauto.
    rewrite bool_decide_eq_true_2; [done|]. apply Map_get_Some_keys. eauto.
  - rewrite Map_keys_set_absent by done.
    rewrite bool_decide_eq_false_2; [done|]. by apply Map_get_None_keys.
Qed.

Lemma setRegions_keys part regs t :
  Js.Map_keys (fold_left (setRegion part) regs t) =
  fold_left Js.Set_add (Region_id <$> regs) (Js.Map_keys t).
Proof.
  revert t. induction regs as [|reg regs IH]; intros t; [done|].
  rewrite fmap_cons. cbn [fold_left]. rewrite IH. unfold setRegion.
  by rewrite Map_keys_set.
Qed.

Lemma loadTable_keys ps t :
  Js.Map_keys (loadTable ps t) =
  fold_left Js.Set_add (declaredIds ps) (Js.Map_keys t).
Proof.
  unfold loadTable, declaredIds. revert t.
  induction ps as [|part ps IH]; intros t; [done|].
  cbn [fold_left]. rewrite IH, bind_cons, fold_left_app. f_equal.
  unfold loadPartition. by rewrite loadServices_keys, setRegions_keys.
Qed.

Lemma fold_Set_add_prefix (l s : list string) :
  s `prefix_of` fold_left Js.Set_add l s.
Proof.
  revert s. induction l as [|x l IH]; intros s; simpl; [done|].
  etrans; [|apply IH]. unfold Js.Set_add.
  case_bool_decide; [done|]. by apply prefix_app_r.
Qed.

Lemma loadTable_keyedById ps t : keyedById t -> keyedById (loadTable ps t).
Proof.
  unfold loadTable. revert t.
  induction ps as [|part ps IH]; intros t Ht; [done|].
  cbn [fold_left]. apply IH. intros k rd.
  rewrite loadPartition_get.
  destruct (declaredRegion part k) as [reg|] eqn:E.
  - intros [= <-]. simpl.
    apply last_Some_elem_of, list_elem_of_filter in E. by destruct E.
  - destruct (Js.Map_get t k) as [rd0|] eqn:E0; [|done].
    intros [= <-]. simpl. by apply Ht.
Qed.

Lemma reachable_keyedById host p :
  reachable host p -> keyedById (regionData p).
Proof.
  induction 1 as [endpoints gs ctx|endpoints p _ IH|loaded p _ IH|r p _ IH
                 |regions p _ IH].
  - simpl. by apply loadTable_keyedById.
  - simpl. by apply loadTable_keyedById.
  - destruct loaded as [endpoints|err]; simpl; [|done].
    by apply loadTable_keyedById.
  - unfold setLastTouchedRegion. by destruct (Js.if_truthy r).
  - done.
Qed.

Lemma Map_get_elem_of {V} (m : list (string * V)) k v :
  NoDup (Js.Map_keys m) -> (k, v) ∈ m <-> Js.Map_get m k = Some v.
Proof.
  unfold Js.Map_keys. induction m as [|[k0 v0] m IH]; intros Hnd.
  - split; [inversion 1 | done].
  - rewrite fmap_cons in Hnd. apply NoDup_cons in Hnd as [Hk0 Hnd].
    rewrite elem_of_cons. cbn [Js.Map_get].
    destruct (bool_decide_reflect (k0 = k)) as [->|Hne].
    + split; [|intros [= ->]; by left].
      intros [[= ->]|Hin]; [done|].
      destruct Hk0. apply list_elem_of_fmap. by exists (k, v).
    + rewrite <- IH by done.
      split; [intros [[= ? ?]|?]; done | by right].
Qed.

(** The regions of a partition, entry by entry. *)
Lemma getRegions_elem p pid reg :
  reg ∈ (getRegions p (Some pid)).1 <->
  exists k rd, (k, rd) ∈ regionData p /\ partitionId rd = pid /\ region rd = reg.
Proof.
  unfold getRegions, dbind, dret, Js.Map_values. simpl.
  rewrite list_elem_of_fmap. split.
  - intros (rd & -> & Hin). apply list_elem_of_filter in Hin as [[= Hpid] Hin].
    apply list_elem_of_fmap in Hin as ([k rd'] & -> & Hin). by exists k, rd'.
  - intros (k & rd & Hin & Hpid & Hreg). exists rd. split; [done|].
    apply list_elem_of_filter. split; [by rewrite Hpid|].
    apply list_elem_of_fmap. by exists (k, rd).
Qed.
End IndexOrder.

(** X1: the map keeps the region ids in the order in which they were first
    declared.  A load leaves the ids already present where they are and adds
    the ids the manifest declares behind them, each once; an index built
    from a manifest has exactly the declared ids, without repetition. *)
Theorem region_ids_in_declaration_order (endpoints : Endpoints)
    (p : RegionProvider) (gs : GlobalState) (ctx : AwsContext) :
  Js.Map_keys (regionData (loadFromEndpoints endpoints p)) =
    fold_left Js.Set_add (declaredIds (partitions endpoints))
      (Js.Map_keys (regionData p))
  /\ Js.Map_keys (regionData p) `prefix_of`
       Js.Map_keys (regionData (loadFromEndpoints endpoints p))
  /\ Js.Map_keys (regionData (new_RegionProvider endpoints gs ctx)) =
       Js.new_Set (declaredIds (partitions endpoints)).
Proof.
  split_and!.
  - apply loadTable_keys.
  - simpl. rewrite loadTable_keys. apply fold_Set_add_prefix.
  - simpl. by rewrite loadTable_keys.
Qed.

(** X2: in a reachable provider [getRegions] and [getPartitionId] agree: a
    region id belongs to the partition [pid] according to [getPartitionId]
    exactly when [getRegions(pid)] lists a region with that id. *)
Theorem getRegions_agrees_with_getPartitionId (host : Host)
    (p : RegionProvider) (pid r : string) :
  reachable host p ->
  ((getPartitionId p r).1 = Some pid <->
   exists reg, reg ∈ (getRegions p (Some pid)).1 /\ Region_id reg = r).
Proof.
  intros Hreach.
  destruct (reachable_invariant host p Hreach) as [Hnd _].
  pose proof (reachable_keyedById host p Hreach) as Hkey.
  rewrite getPartitionId_fst. split.
  - destruct (Js.Map_get (regionData p) r) as [rd|] eqn:E; [|done].
    intros [= Hpid]. exists (region rd). split; [|by apply Hkey].
    apply getRegions_elem. exists r, rd. split; [|done].
    by apply Map_get_elem_of.
  - intros (reg & Hin & <-).
    apply getRegions_elem in Hin as (k & rd & Hin & Hpid & <-).
    apply Map_get_elem_of in Hin; [|done].
    rewrite (Hkey k rd Hin), Hin. simpl. by rewrite Hpid.
Qed.

Lemma getRegions_agrees_with_getPartitionId_witness :
  (getPartitionId sampleProvider "eu-west-1").1 = Some "aws" <->
  exists reg, reg ∈ (getRegions sampleProvider (Some "aws")).1
              /\ Region_id reg = "eu-west-1".
Proof.
  apply (getRegions_agrees_with_getPartitionId sampleHost sampleProvider).
  apply reach_new.
Defined.

(** X3: the regions that [getRegions] returns for a reachable provider have
    pairwise distinct ids, for an explicit partition and for the default
    one. *)
Theorem getRegions_distinct_ids (host : Host) (p : RegionProvider)
    (pid : option string) :
  reachable host p -> NoDup (Region_id <$> (getRegions p pid).1).
Proof.
  intros Hreach.
  destruct (reachable_invariant host p Hreach) as [Hnd _].
  pose proof (reachable_keyedById host p Hreach) as Hkey.
  assert (forall o : option string,
            NoDup (Region_id <$> (region <$>
                     filter (fun rd => Some (partitionId rd) = o)
                            (Js.Map_values (regionData p))))) as Hall.
  { intros o. revert Hnd Hkey. unfold Js.Map_values, Js.Map_keys.
    induction (regionData p) as [|[k rd] t IH]; intros Hnd Hkey.
    - apply NoDup_nil_2.
    - rewrite fmap_cons in Hnd. apply NoDup_cons in Hnd as [Hk Hnd].
      assert (keyedById t) as Hkey'.
      { intros k' rd' Hget. apply Hkey. cbn [Js.Map_get].
        rewrite bool_decide_eq_false_2; [done|]. intros ->.
        destruct Hk. apply Map_get_Some_keys. eauto. }
      specialize (IH Hnd Hkey').
      rewrite fmap_cons, filter_cons. simpl. case_decide; [|done].
      rewrite !fmap_cons. apply NoDup_cons. split; [|done].
      assert (Region_id (region rd) = k) as ->.
      { apply Hkey. cbn [Js.Map_get]. by rewrite bool_decide_eq_true_2. }
      intros Hin. apply list_elem_of_fmap in Hin as (reg & -> & Hin).
      apply list_elem_of_fmap in Hin as (rd' & -> & Hin).
      apply list_elem_of_filter in Hin as [_ Hin].
      apply list_elem_of_fmap in Hin as ([k' rd''] & -> & Hin). simpl in *.
      apply Map_get_elem_of in Hin; [|done].
      rewrite (Hkey' _ _ Hin) in Hk.
      destruct Hk. apply list_elem_of_fmap. exists (k', rd''). split; [done|].
      by apply Map_get_elem_of. }
  unfold getRegions, dbind, dret. destruct pid as [pid|]; simpl; [done|].
  destruct (defaultPartitionId p) as [o d]. apply Hall.
Qed.

Lemma getRegions_distinct_ids_witness :
  NoDup (Region_id <$> (getRegions sampleProvider None).1).
Proof.
  apply (getRegions_distinct_ids sampleHost sampleProvider None), reach_new.
Defined.

Section MoreSetLemmas.
Implicit Types (s l : list string).

Lemma fold_Set_add_NoDup l s :
  NoDup (s ++ l) -> fold_left Js.Set_add l s = s ++ l.
Proof.
  revert s. induction l as [|x l IH]; intros s Hnd; simpl.
  - by rewrite app_nil_r.
  - assert (Js.Set_add s x = s ++ [x]) as ->.
    { unfold Js.Set_add. rewrite bool_decide_eq_false_2; [done|].
      apply NoDup_app in Hnd as (_ & Hdisj & _).
      intros Hin. apply (Hdisj x Hin). by left. }
    rewrite IH; rewrite <- app_assoc; done.
Qed.

Lemma new_Set_NoDup_id l : NoDup l -> Js.new_Set l = l.
Proof. intros Hnd. unfold Js.new_Set. by rewrite fold_Set_add_NoDup. Qed.

Lemma new_Set_constant l r :
  l <> [] -> (forall x, x ∈ l -> x = r) -> Js.new_Set l = [r].
Proof.
  intros Hne Hall.
  pose proof (new_Set_NoDup l) as Hnd.
  pose proof (new_Set_elem l) as Hel.
  destruct (Js.new_Set l) as [|a [|b rest]].
  - destruct l as [|x l]; [done|].
    assert (x ∈ []) as Hx by (apply Hel; by left). inversion Hx.
  - f_equal. apply Hall, Hel. by left.
  - assert (a = r) as -> by (apply Hall, Hel; by left).
    assert (b = r) as -> by (apply Hall, Hel; by right; left).
    apply NoDup_cons in Hnd as [Hnot _]. destruct Hnot. by left.
Qed.
End MoreSetLemmas.

(** X4: a successful load replaces the index wholesale.  The continuation
    leaves the records of a provider built from the loaded manifest, fires
    the change event once and emits no diagnostic; a region that the loaded
    manifest does not declare has no record afterwards, whatever the index
    held before. *)
Theorem fulfilled_load_replaces_index (host : Host) (endpoints : Endpoints)
    (instance : RegionProvider) :
  let out := settleLoad host (Fulfilled endpoints) instance in
  out.1.1 = Fulfilled tt
  /\ out.2 = []
  /\ regionData out.1.2 =
       regionData (new_RegionProvider endpoints (globalState instance)
                     (awsContext instance))
  /\ onDidChangeFired out.1.2 = S (onDidChangeFired instance)
  /\ lastTouchedRegion out.1.2 = lastTouchedRegion instance
  /\ globalState out.1.2 = globalState instance
  /\ (forall r,
        (forall part, part ∈ partitions endpoints -> ~ declares part r) ->
        (getPartitionId out.1.2 r).1 = None
        /\ (getDnsSuffixForRegion out.1.2 r).1 = None
        /\ forall s, isServiceInRegion out.1.2 s r = false).
Proof.
  assert (settleLoad host (Fulfilled endpoints) instance =
          (Fulfilled tt,
           {| regionData := loadTable (partitions endpoints) [];
              onDidChangeFired := S (onDidChangeFired instance);
              lastTouchedRegion := lastTouchedRegion instance;
              globalState := globalState instance;
              awsContext := awsContext instance |}, [])) as Hout
    by reflexivity.
  intros out. subst out. rewrite Hout. cbn [fst snd].
  split_and!; try reflexivity.
  intros r Hnone.
  assert (Js.Map_get (loadTable (partitions endpoints) []) r = None) as Hget
    by (by rewrite loadTable_get_undeclared).
  rewrite getPartitionId_fst, getDnsSuffixForRegion_fst.
  unfold isServiceInRegion. cbn [regionData]. rewrite Hget. done.
Qed.

Lemma fulfilled_load_replaces_index_witness :
  (getPartitionId
     (settleLoad sampleHost (Fulfilled danglingEndpoints) sampleProvider).1.2
     "cn-north-1").1 = None.
Proof.
  destruct (fulfilled_load_replaces_index sampleHost danglingEndpoints
              sampleProvider) as (_ & _ & _ & _ & _ & _ & H).
  apply (H "cn-north-1").
  intros part [->|Hin]%elem_of_cons; [|inversion Hin].
  unfold declares. simpl. inversion 1.
Defined.

(** X5: [loadFromEndpoints] on its own is additive.  A region that the
    manifest does not declare keeps its partition id and DNS suffix and the
    services it had, and gains the services of the manifest that have an
    endpoint targeting it. *)
Theorem load_keeps_undeclared_regions (endpoints : Endpoints)
    (p : RegionProvider) (r : string) :
  (forall part, part ∈ partitions endpoints -> ~ declares part r) ->
  getPartitionId (loadFromEndpoints endpoints p) r = getPartitionId p r
  /\ getDnsSuffixForRegion (loadFromEndpoints endpoints p) r =
       getDnsSuffixForRegion p r
  /\ forall s,
       isServiceInRegion (loadFromEndpoints endpoints p) s r = true <->
       isServiceInRegion p s r = true
       \/ (s <> "" /\ is_Some (Js.Map_get (regionData p) r) /\
           declaresEndpoint (partitions endpoints) s r).
Proof.
  intros Hnone.
  pose proof (loadTable_get_undeclared (partitions endpoints) (regionData p) r
                Hnone) as Hget.
  split_and!.
  - unfold getPartitionId. simpl. rewrite Hget.
    by destruct (Js.Map_get (regionData p) r).
  - unfold getDnsSuffixForRegion. simpl. rewrite Hget.
    by destruct (Js.Map_get (regionData p) r).
  - intros s. rewrite !isServiceInRegion_true_iff. simpl. rewrite Hget.
    destruct (Js.Map_get (regionData p) r) as [rd|]; simpl.
    + split.
      * intros (Hs & rd' & [= <-] & Hin). simpl in Hin.
        apply elem_of_app in Hin as [Hin|Hin].
        -- left. eauto.
        -- right. split_and!; [done|eauto|]. by apply manifestHits_elem.
      * intros [(Hs & rd' & [= <-] & Hin)|(Hs & _ & Hdecl)].
        -- split; [done|]. eexists. split; [done|]. simpl.
           apply elem_of_app. by left.
        -- split; [done|]. eexists. split; [done|]. simpl.
           apply elem_of_app. right. by apply manifestHits_elem.
    + split.
      * intros (_ & rd' & ? & _). done.
      * intros [(_ & rd' & ? & _)|(_ & [? ?] & _)]; done.
Qed.

Lemma load_keeps_undeclared_regions_witness :
  getPartitionId (loadFromEndpoints danglingEndpoints sampleProvider) "us-east-1"
  = getPartitionId sampleProvider "us-east-1".
Proof.
  apply (load_keeps_undeclared_regions danglingEndpoints sampleProvider
           "us-east-1").
  intros part [->|Hin]%elem_of_cons; [|inversion Hin].
  unfold declares. simpl. inversion 1.
Defined.

(** X6: a list of explorer regions without duplicates is persisted and read
    back as it is; and persisting what was read back changes nothing. *)
Theorem explorerRegions_round_trip (p : RegionProvider)
    (regions : list string) :
  (NoDup regions -> getExplorerRegions (updateExplorerRegions p regions) = regions)
  /\ updateExplorerRegions (updateExplorerRegions p regions)
       (getExplorerRegions (updateExplorerRegions p regions))
     = updateExplorerRegions p regions.
Proof.
  unfold getExplorerRegions, updateExplorerRegions, Js.Array_from. simpl.
  split.
  - apply new_Set_NoDup_id.
  - by rewrite (new_Set_NoDup_id _ (new_Set_NoDup regions)).
Qed.

Lemma explorerRegions_round_trip_witness :
  getExplorerRegions
    (updateExplorerRegions sampleProvider ["eu-west-1"; "us-east-1"])
  = ["eu-west-1"; "us-east-1"].
Proof.
  apply (explorerRegions_round_trip sampleProvider ["eu-west-1"; "us-east-1"]).
  apply NoDup_cons. split; [by intros [=]%list_elem_of_singleton|].
  apply NoDup_singleton.
Defined.

(** X7: after the explorer regions are set to a non-empty list that names
    one region only, however often, [guessDefaultRegion] returns that
    region for a node without a region code. *)
Theorem guessDefaultRegion_after_pinning_one (p : RegionProvider)
    (regions : list string) (r : string) (node : option AWSTreeNodeBase) :
  regions <> [] -> (forall x, x ∈ regions -> x = r) ->
  noRegionCode node ->
  guessDefaultRegion (updateExplorerRegions p regions) node = r.
Proof.
  intros Hne Hall Hno. unfold guessDefaultRegion.
  assert (Js.if_truthy (node ≫= regionCode) = None) as ->.
  { destruct node as [n|]; [|done]. simpl.
    destruct (regionCode n) as [c|] eqn:E; [|done].
    by rewrite (Hno n c eq_refl E). }
  unfold getExplorerRegions, updateExplorerRegions, Js.Array_from. simpl.
  by rewrite (new_Set_constant regions r Hne Hall).
Qed.

Lemma guessDefaultRegion_after_pinning_one_witness :
  guessDefaultRegion
    (updateExplorerRegions sampleProvider ["eu-west-1"; "eu-west-1"]) None
  = "eu-west-1".
Proof.
  apply (guessDefaultRegion_after_pinning_one sampleProvider
           ["eu-west-1"; "eu-west-1"] "eu-west-1" None).
  - discriminate.
  - intros x [->|[->|Hin]%elem_of_cons]%elem_of_cons; [done|done|inversion Hin].
  - intros n c Hn. discriminate Hn.
Defined.

Lemma if_truthy_Some (o : option string) c :
  Js.if_truthy o = Some c <-> o = Some c /\ c <> "".
Proof.
  destruct o as [[|a s]|]; simpl; split; try done.
  - by intros [[= <-] ?].
  - intros [= <-]. done.
  - by intros [[= <-] _].
  - by intros [? _].
Qed.

(** X8: [setLastTouchedRegion] ignores the empty string as it ignores
    [undefined]; a non-empty region is recorded, nothing else changes, and
    [guessDefaultRegion] then returns it whenever the node carries no region
    code and the explorer regions are not exactly one. *)
Theorem setLastTouchedRegion_records_nonblank (p : RegionProvider) :
  setLastTouchedRegion p (Some "") = p
  /\ forall r, r <> "" ->
       lastTouchedRegion (setLastTouchedRegion p (Some r)) = Some r
       /\ regionData (setLastTouchedRegion p (Some r)) = regionData p
       /\ globalState (setLastTouchedRegion p (Some r)) = globalState p
       /\ forall node, noRegionCode node ->
            length (getExplorerRegions p) <> 1 ->
            guessDefaultRegion (setLastTouchedRegion p (Some r)) node = r.
Proof.
  split; [done|]. intros r Hr.
  assert (setLastTouchedRegion p (Some r) =
          {| regionData := regionData p;
             onDidChangeFired := onDidChangeFired p;
             lastTouchedRegion := Some r;
             globalState := globalState p;
             awsContext := awsContext p |}) as ->.
  { unfold setLastTouchedRegion. simpl. by apply truthy_nonempty in Hr as ->. }
  split_and!; try done.
  intros node Hno Hlen. unfold guessDefaultRegion.
  assert (Js.if_truthy (node ≫= regionCode) = None) as ->.
  { destruct node as [n|]; [|done]. simpl.
    destruct (regionCode n) as [c|] eqn:E; [|done].
    by rewrite (Hno n c eq_refl E). }
  unfold getExplorerRegions in *. simpl.
  apply truthy_nonempty in Hr.
  destruct (Js.nullish (gs_regionSetting (globalState p)) [])
    as [|x [|y rest]]; simpl; try by rewrite Hr.
  done.
Qed.

Lemma setLastTouchedRegion_records_nonblank_witness :
  guessDefaultRegion (setLastTouchedRegion sampleProvider (Some "eu-central-1"))
    None = "eu-central-1".
Proof.
  destruct (setLastTouchedRegion_records_nonblank sampleProvider) as [_ H].
  destruct (H "eu-central-1") as (_ & _ & _ & Hguess); [discriminate|].
  apply Hguess.
  - intros n c Hn. discriminate Hn.
  - simpl. lia.
Defined.

(** X9: [guessDefaultRegion] returns the empty string only when it is the
    single explorer region or the credential default region: every other
    source is used only when it is non-empty. *)
Theorem guessDefaultRegion_nonblank (p : RegionProvider)
    (node : option AWSTreeNodeBase) :
  getExplorerRegions p <> [""] ->
  getCredentialDefaultRegion (awsContext p) <> Some "" ->
  guessDefaultRegion p node <> "".
Proof.
  intros Hexp Hcred. unfold guessDefaultRegion.
  destruct (Js.if_truthy (node ≫= regionCode)) as [c|] eqn:E1.
  { by apply if_truthy_Some in E1 as [_ ?]. }
  assert (match Js.if_truthy (lastTouchedRegion p) with
          | Some r => r
          | None =>
              match Js.if_truthy
                      (Region_id <$> gs_lastSelectedRegion (globalState p)) with
              | Some id => id
              | None => defaultRegionId p
              end
          end <> "") as Hrest.
  { destruct (Js.if_truthy (lastTouchedRegion p)) as [r|] eqn:E2.
    { by apply if_truthy_Some in E2 as [_ ?]. }
    destruct (Js.if_truthy
                (Region_id <$> gs_lastSelectedRegion (globalState p)))
      as [id|] eqn:E3.
    { by apply if_truthy_Some in E3 as [_ ?]. }
    unfold defaultRegionId, DEFAULT_REGION.
    destruct (getCredentialDefaultRegion (awsContext p)) as [c|]; simpl;
      [|discriminate].
    intros ->. done. }
  destruct (getExplorerRegions p) as [|x [|y rest]]; try done.
  intros ->. done.
Qed.

Lemma guessDefaultRegion_nonblank_witness :
  guessDefaultRegion sampleProvider (Some blankNode) <> "".
Proof.
  apply (guessDefaultRegion_nonblank sampleProvider (Some blankNode));
    discriminate.
Defined.

(** X10: [getRegions()] without an argument lists the partition of the
    default region.  When the default region has no record, the result is
    empty, after one warning; when it has one, the result is that of
    [getRegions] called with the partition id of the record. *)
Theorem getRegions_default_partition (p : RegionProvider) :
  (Js.Map_get (regionData p) (defaultRegionId p) = None ->
   getRegions p None =
     ([], [LogWarn ("Unable to determine the Partition that Region "
                      +:+ defaultRegionId p +:+ " belongs to")]))
  /\ (forall rd, Js.Map_get (regionData p) (defaultRegionId p) = Some rd ->
      (getRegions p None).1 = (getRegions p (Some (partitionId rd))).1).
Proof.
  unfold getRegions, defaultPartitionId, getPartitionId, dbind, dret, when_, emit.
  split.
  - intros ->. simpl. f_equal.
    induction (Js.Map_values (regionData p)) as [|rd l IH]; [done|].
    rewrite filter_cons. by case_decide.
  - intros rd ->. simpl. by destruct (Js.truthy (partitionId rd)).
Qed.

Lemma getRegions_default_partition_witness :
  (getRegions sampleProvider None).1 = (getRegions sampleProvider (Some "aws")).1.
Proof.
  destruct (getRegions_default_partition sampleProvider) as [_ H].
  apply (H (appendServiceIds ["s3"; "lambda"] (freshRecord awsPartition usEast1))).
  reflexivity.
Defined.

(** X11: the lookups warn exactly when they have nothing truthy to return.
    [getPartitionId] logs nothing if and only if the region has a record
    with a non-empty partition id, [getDnsSuffixForRegion] likewise for the
    DNS suffix, and [getRegions] with an explicit partition logs nothing. *)
Theorem lookups_warn_when_falsy (p : RegionProvider) (r : string) :
  ((getPartitionId p r).2 = [] <->
   exists rd, Js.Map_get (regionData p) r = Some rd /\ partitionId rd <> "")
  /\ ((getDnsSuffixForRegion p r).2 = [] <->
      exists rd, Js.Map_get (regionData p) r = Some rd /\ dnsSuffix rd <> "")
  /\ (forall pid, (getRegions p (Some pid)).2 = []).
Proof.
  unfold getPartitionId, getDnsSuffixForRegion, getRegions, dbind, dret,
    when_, emit.
  destruct (Js.Map_get (regionData p) r) as [rd|]; simpl.
  - split_and!; [| |done].
    + destruct (partitionId rd) as [|a s] eqn:E; simpl.
      * split; [done|]. intros (rd' & [= <-] & ?). congruence.
      * split; [|done]. intros _. exists rd. split; [done|]. congruence.
    + destruct (dnsSuffix rd) as [|a s] eqn:E; simpl.
      * split; [done|]. intros (rd' & [= <-] & ?). congruence.
      * split; [|done]. intros _. exists rd. split; [done|]. congruence.
  - split_and!; [| |done]; (split; [done|]; by intros (rd' & ? & _)).
Qed.

Lemma lookups_warn_when_falsy_witness :
  (getPartitionId sampleProvider "cn-north-1").2 = [].
Proof.
  apply (lookups_warn_when_falsy sampleProvider "cn-north-1").
  eexists. split; [reflexivity|]. discriminate.
Defined.

(** X12: for a non-empty service id, [isServiceInRegion] is membership: it
    answers [true] if and only if the region has a record whose service ids
    contain the id. *)
Theorem isServiceInRegion_nonblank_membership (p : RegionProvider)
    (s r : string) :
  s <> "" ->
  (isServiceInRegion p s r = true <->
   exists rd, Js.Map_get (regionData p) r = Some rd /\ s ∈ serviceIds rd).
Proof.
  intros Hs. rewrite isServiceInRegion_true_iff. split; [by intros [_ ?]|done].
Qed.

Lemma isServiceInRegion_nonblank_membership_witness :
  isServiceInRegion sampleProvider "lambda" "us-east-1" = true.
Proof.
  apply (isServiceInRegion_nonblank_membership sampleProvider "lambda" "us-east-1").
  - discriminate.
  - eexists. split; [reflexivity|]. by right; left.
Defined.

(** X13: in an index built from a manifest, a service with a non-empty id
    is in a region exactly when some partition declares the region, and the
    last partition to declare it, or a later one, has the service with an
    endpoint targeting the region. *)
Theorem fresh_isServiceInRegion_exact (endpoints : Endpoints)
    (gs : GlobalState) (ctx : AwsContext) (s r : string) :
  s <> "" ->
  (isServiceInRegion (new_RegionProvider endpoints gs ctx) s r = true <->
   exists pre part post,
     partitions endpoints = pre ++ part :: post /\
     declares part r /\ (forall q, q ∈ post -> ~ declares q r) /\
     declaresEndpoint (part :: post) s r).
Proof.
  intros Hs. rewrite isServiceInRegion_true_iff. simpl. split.
  - intros (_ & rd & Hget & Hin).
    destruct (fresh_load_get (partitions endpoints) r)
      as [[Hnone _]|(pre & part & post & reg & Hsplit & Hreg & Hpost & Hget')];
      [congruence|].
    rewrite Hget' in Hget. injection Hget as <-.
    unfold appendServiceIds, freshRecord in Hin. cbn [serviceIds app] in Hin.
    exists pre, part, post. split_and!; try done.
    + apply declaredRegion_declares. eauto.
    + by apply manifestHits_elem.
  - intros (pre & part & post & Hsplit & Hdecl & Hpost & Hend).
    split; [done|].
    apply declaredRegion_declares in Hdecl as [reg Hreg].
    eexists. split.
    + rewrite Hsplit. by apply loadTable_get_declared.
    + unfold appendServiceIds, freshRecord. cbn [serviceIds app].
      by apply manifestHits_elem.
Qed.

Lemma fresh_isServiceInRegion_exact_witness :
  isServiceInRegion sampleProvider "s3" "eu-west-1" = true.
Proof.
  apply (fresh_isServiceInRegion_exact sampleEndpoints emptyGlobalState
           noCredentials "s3" "eu-west-1"); [discriminate|].
  exists [], awsPartition, [awsCnPartition]. split_and!.
  - reflexivity.
  - unfold declares. simpl. by right; left.
  - intros q [->|Hin]%elem_of_cons; [|inversion Hin].
    unfold declares. simpl. intros [=]%list_elem_of_singleton.
  - exists awsPartition, (svc "s3" ["us-east-1"; "eu-west-1"]),
      {| ServiceEndpoint_regionId := "eu-west-1" |}.
    split_and!; try reflexivity; [by left | by left | by right; left].
Defined.

(** ** The suggestion states and the events of a recording *)

Lemma getSuggestionState_lookup (i acceptIndex : Z)
    (s1 s2 : option (gmap Z string)) :
  (s1 = None <-> s2 = None) ->
  s1 ≫= (fun m => m !! i) = s2 ≫= (fun m => m !! i) ->
  getSuggestionState i acceptIndex s1 = getSuggestionState i acceptIndex s2.
Proof.
  intros Hnone Hlook. unfold getSuggestionState. rewrite Hlook.
  assert (bool_decide (s1 <> None) = bool_decide (s2 <> None)) as ->; [|done].
  apply bool_decide_ext. by rewrite Hnone.
Qed.

Lemma getSuggestionState_Accept (i acceptIndex : Z)
    (states : option (gmap Z string)) :
  getSuggestionState i acceptIndex states = "Accept" <->
  i = acceptIndex /\ acceptIndex <> (-1)%Z /\
  (states = None \/ states ≫= (fun m => m !! i) = Some "Showed").
Proof.
  unfold getSuggestionState.
  set (state := states ≫= (fun m => m !! i)).
  assert ((if bool_decide (states <> None) && bool_decide (state <> Some "Showed")
           then "Unseen"
           else if bool_decide (acceptIndex = (-1)%Z) then "Reject"
                else if bool_decide (i = acceptIndex) then "Accept" else "Ignore")
          = "Accept" <->
          i = acceptIndex /\ acceptIndex <> (-1)%Z /\
          (states = None \/ state = Some "Showed")) as Hrest.
  { destruct (bool_decide_reflect (states <> None)) as [Hs|Hs];
      destruct (bool_decide_reflect (state <> Some "Showed")) as [Hv|Hv];
      simpl;
      try (destruct (bool_decide_reflect (acceptIndex = (-1)%Z));
           destruct (bool_decide_reflect (i = acceptIndex)));
      split; try discriminate; try tauto.
    all: try (intros _; split_and!; try done).
    all: try (right; by apply dec_stable).
    all: try (left; by apply dec_stable). }
  destruct state as [s|] eqn:E; [|done].
  destruct (Js.truthy s && Array_includes ["Empty"; "Filter"; "Discard"] s)
    eqn:Hin; [|done].
  apply andb_true_iff in Hin as [_ Hin]. unfold Array_includes in Hin.
  apply bool_decide_eq_true_1 in Hin.
  split.
  - intros ->.
    repeat (apply elem_of_cons in Hin as [Hin|Hin]; [discriminate|]).
    inversion Hin.
  - intros (_ & _ & [->|[= ->]]); [done|].
    repeat (apply elem_of_cons in Hin as [Hin|Hin]; [discriminate|]).
    inversion Hin.
Qed.

Section Recording.
Context (this : TelemetryHelper) (env : TelemetryEnv)
  (requestId sessionId : string) (acceptIndex : Z) (language : string)
  (paginationIndex : Z).
Implicit Types (l : list (Recommendation env)) (rec : Recording)
  (m : gmap Z string).

Local Abbreviation callback :=
  (recordOne this env requestId sessionId acceptIndex language paginationIndex).
Local Abbreviation decision :=
  (userDecision this env requestId sessionId acceptIndex language
     paginationIndex).

Lemma forEach_suggestionStates l i rec :
  suggestionStates (Array_forEach_from callback l i rec) =
  markEmpty l i <$> suggestionStates rec.
Proof.
  revert i rec. induction l as [|e l IH]; intros i rec; cbn [Array_forEach_from].
  - by destruct (suggestionStates rec).
  - rewrite IH. unfold recordOne. cbn [suggestionStates markEmpty].
    unfold TelemetryHelper_instance. cbn [suggestionStates].
    destruct (suggestionStates rec) as [m|]; case_bool_decide; done.
Qed.

Lemma markEmpty_lookup_lt l i m z :
  (z < Z.of_nat i)%Z -> markEmpty l i m !! z = m !! z.
Proof.
  revert i m. induction l as [|e l IH]; intros i m Hz; cbn [markEmpty]; [done|].
  rewrite IH by lia. case_bool_decide; [|done].
  apply lookup_insert_ne. lia.
Qed.

Lemma markEmpty_lookup l i m k e :
  l !! k = Some e ->
  markEmpty l i m !! Z.of_nat (i + k) =
  if bool_decide (String.length (content e) = 0) then Some "Empty"
  else m !! Z.of_nat (i + k).
Proof.
  revert i m k. induction l as [|e0 l IH]; intros i m k Hk; [done|].
  cbn [markEmpty]. destruct k as [|k].
  - injection Hk as ->. rewrite Nat.add_0_r, markEmpty_lookup_lt by lia.
    case_bool_decide; [|done]. apply lookup_insert_eq.
  - simpl in Hk. replace (i + S k) with (S i + k) by lia.
    rewrite (IH (S i) _ k Hk).
    destruct (bool_decide (String.length (content e) = 0)); [done|].
    case_bool_decide; [|done]. apply lookup_insert_ne. lia.
Qed.

Lemma markEmpty_lookup_ge l i m z :
  (Z.of_nat (i + length l) <= z)%Z -> markEmpty l i m !! z = m !! z.
Proof.
  revert i m. induction l as [|e l IH]; intros i m Hz; cbn [markEmpty]; [done|].
  simpl in Hz. rewrite IH by lia. case_bool_decide; [|done].
  apply lookup_insert_ne. lia.
Qed.

(** The event of an element is the one its index has in the final map. *)
Lemma forEach_emitted l i rec :
  let out := Array_forEach_from callback l i rec in
  emitted out =
  emitted rec ++
  imap (fun k e => decision e (i + k) (suggestionStates out)
                     (Js.nullish (static_instance rec) new_TelemetryHelper)) l.
Proof.
  revert i rec. induction l as [|e l IH]; intros i rec;
    cbn [Array_forEach_from].
  - simpl. by rewrite app_nil_r.
  - cbn zeta in *. rewrite IH, imap_cons.
    set (out := Array_forEach_from callback l (S i) (callback e i rec)).
    assert (suggestionStates out =
            markEmpty l (S i) <$> suggestionStates (callback e i rec)) as Hout
      by apply forEach_suggestionStates.
    unfold recordOne at 1 2. unfold TelemetryHelper_instance.
    cbn [emitted static_instance Js.nullish]. rewrite <- app_assoc.
    f_equal. cbn [app]. f_equal.
    + rewrite Nat.add_0_r. unfold userDecision. f_equal.
      apply getSuggestionState_lookup.
      * rewrite Hout. unfold recordOne, TelemetryHelper_instance.
        cbn [suggestionStates].
        destruct (suggestionStates rec);
          destruct (bool_decide (String.length (content e) = 0)); done.
      * rewrite Hout. unfold recordOne, TelemetryHelper_instance.
        cbn [suggestionStates].
        destruct (suggestionStates rec) as [m|];
          destruct (bool_decide (String.length (content e) = 0)); simpl;
          try done; by rewrite markEmpty_lookup_lt by lia.
    + apply imap_ext. intros k e' _. simpl.
      by replace (i + S k) with (S (i + k)) by lia.
Qed.
End Recording.

Lemma String_length_0 (s : string) : String.length s = 0 <-> s = "".
Proof. destruct s; simpl; split; congruence. Qed.

(** The events that a call adds, one by one. *)
Lemma recorded_event_lookup (this : TelemetryHelper) (env : TelemetryEnv)
    (requestId sessionId : string) (recommendations : list (Recommendation env))
    (acceptIndex : Z) (languageId : option string) (paginationIndex : Z)
    (rec : Recording) (k : nat) :
  let out := recordUserDecisionTelemetry this env requestId sessionId
               recommendations acceptIndex languageId paginationIndex rec in
  emitted out !! (length (emitted rec) + k) =
  (fun e => userDecision this env requestId sessionId acceptIndex
              (getLanguageContext_language env languageId) paginationIndex
              e k (suggestionStates out)
              (Js.nullish (static_instance rec) new_TelemetryHelper))
    <$> recommendations !! k.
Proof.
  intros out. subst out. unfold recordUserDecisionTelemetry, Array_forEach.
  rewrite forEach_emitted, lookup_app_r by lia.
  replace (length (emitted rec) + k - length (emitted rec)) with k by lia.
  by rewrite list_lookup_imap.
Qed.

(** The states after a call, as far as the events need them. *)
Lemma recording_marks_empty_content_aux (this : TelemetryHelper)
    (env : TelemetryEnv) (requestId sessionId : string)
    (recommendations : list (Recommendation env)) (acceptIndex : Z)
    (languageId : option string) (paginationIndex : Z) (rec : Recording) :
  let out := recordUserDecisionTelemetry this env requestId sessionId
               recommendations acceptIndex languageId paginationIndex rec in
  (suggestionStates rec = None -> suggestionStates out = None)
  /\ forall m, suggestionStates rec = Some m ->
       exists m', suggestionStates out = Some m'
         /\ (forall k e, recommendations !! k = Some e -> content e = "" ->
               m' !! Z.of_nat k = Some "Empty").
Proof.
  intros out. subst out. unfold recordUserDecisionTelemetry, Array_forEach.
  rewrite forEach_suggestionStates. split.
  - by intros ->.
  - intros m ->. eexists. split; [done|].
    intros k e Hk He.
    pose proof (markEmpty_lookup _ recommendations 0 m k e Hk) as Hm.
    cbn [Nat.add] in Hm. rewrite Hm.
    rewrite bool_decide_eq_true_2; [done|]. by apply String_length_0.
Qed.

(** X14: [recordUserDecisionTelemetry] emits one event for each
    recommendation, in order, behind the events emitted before, and the
    event of the recommendation at position [k] carries the index [k]; for
    an empty list nothing happens at all. *)
Theorem one_event_per_recommendation (this : TelemetryHelper)
    (env : TelemetryEnv) (requestId sessionId : string)
    (recommendations : list (Recommendation env)) (acceptIndex : Z)
    (languageId : option string) (paginationIndex : Z) (rec : Recording) :
  let out := recordUserDecisionTelemetry this env requestId sessionId
               recommendations acceptIndex languageId paginationIndex rec in
  codewhispererSuggestionIndex <$> emitted out =
    (codewhispererSuggestionIndex <$> emitted rec) ++
    (Z.of_nat <$> seq 0 (length recommendations))
  /\ emitted rec `prefix_of` emitted out
  /\ (recommendations = [] -> out = rec).
Proof.
  intros out. subst out. unfold recordUserDecisionTelemetry, Array_forEach.
  rewrite forEach_emitted. split_and!.
  - rewrite fmap_app, fmap_imap. f_equal.
    rewrite <- (imap_seq_0 recommendations Z.of_nat).
    by apply imap_ext.
  - by apply prefix_app_r.
  - by intros ->.
Qed.

(** X15: the map of suggestion states after a recording.  The index of
    every recommendation without content is mapped to 'Empty'; every other
    key keeps what it had; and when no map was passed there is none
    afterwards. *)
Theorem recording_marks_empty_content (this : TelemetryHelper)
    (env : TelemetryEnv) (requestId sessionId : string)
    (recommendations : list (Recommendation env)) (acceptIndex : Z)
    (languageId : option string) (paginationIndex : Z) (rec : Recording) :
  let out := recordUserDecisionTelemetry this env requestId sessionId
               recommendations acceptIndex languageId paginationIndex rec in
  (suggestionStates rec = None -> suggestionStates out = None)
  /\ forall m, suggestionStates rec = Some m ->
       exists m', suggestionStates out = Some m'
         /\ (forall k e, recommendations !! k = Some e -> content e = "" ->
               m' !! Z.of_nat k = Some "Empty")
         /\ (forall k e, recommendations !! k = Some e -> content e <> "" ->
               m' !! Z.of_nat k = m !! Z.of_nat k)
         /\ (forall z, (z < 0 \/ Z.of_nat (length recommendations) <= z)%Z ->
               m' !! z = m !! z).
Proof.
  intros out. subst out. unfold recordUserDecisionTelemetry, Array_forEach.
  rewrite forEach_suggestionStates. split.
  - by intros ->.
  - intros m ->. eexists. split; [done|]. split_and!.
    + intros k e Hk He.
      pose proof (markEmpty_lookup _ recommendations 0 m k e Hk) as Hm.
    cbn [Nat.add] in Hm. rewrite Hm.
      rewrite bool_decide_eq_true_2; [done|]. by apply String_length_0.
    + intros k e Hk He.
      pose proof (markEmpty_lookup _ recommendations 0 m k e Hk) as Hm.
    cbn [Nat.add] in Hm. rewrite Hm.
      rewrite bool_decide_eq_false_2; [done|]. by rewrite String_length_0.
    + intros z [Hz|Hz].
      * apply markEmpty_lookup_lt. lia.
      * apply markEmpty_lookup_ge. simpl. lia.
Qed.

Lemma recording_marks_empty_content_witness :
  exists m',
    suggestionStates
      (recordUserDecisionTelemetry new_TelemetryHelper sampleEnv "request" ""
         sampleRecommendations 2 None 0
         (emptyRecording (Some {[ 2%Z := "Showed" ]}))) = Some m'
    /\ m' !! 1%Z = Some "Empty".
Proof.
  destruct (recording_marks_empty_content new_TelemetryHelper sampleEnv
              "request" "" sampleRecommendations 2 None 0
              (emptyRecording (Some {[ 2%Z := "Showed" ]}))) as [_ H].
  destruct (H {[ 2%Z := "Showed" ]} eq_refl) as (m' & Hm' & Hempty & _).
  exists m'. split; [done|].
  apply (Hempty 1 (Build_Recommendation sampleEnv "" (Some ["MIT"])));
    reflexivity.
Defined.

(** X16: the state reported for a recommendation.  When a map of states is
    passed, a recommendation without content is reported as 'Empty'.  When
    none is passed, content plays no part: the state is 'Reject' if
    [acceptIndex] is -1, else 'Accept' at [acceptIndex] and 'Ignore'
    elsewhere. *)
Theorem reported_suggestion_state (this : TelemetryHelper)
    (env : TelemetryEnv) (requestId sessionId : string)
    (recommendations : list (Recommendation env)) (acceptIndex : Z)
    (languageId : option string) (paginationIndex : Z) (rec : Recording)
    (k : nat) (e : Recommendation env) :
  let out := recordUserDecisionTelemetry this env requestId sessionId
               recommendations acceptIndex languageId paginationIndex rec in
  recommendations !! k = Some e ->
  exists ev,
    emitted out !! (length (emitted rec) + k) = Some ev
    /\ codewhispererSuggestionIndex ev = Z.of_nat k
    /\ (suggestionStates rec <> None -> content e = "" ->
        codewhispererSuggestionState ev = "Empty")
    /\ (suggestionStates rec = None ->
        codewhispererSuggestionState ev =
          if bool_decide (acceptIndex = (-1)%Z) then "Reject"
          else if bool_decide (Z.of_nat k = acceptIndex) then "Accept"
               else "Ignore").
Proof.
  intros out Hk.
  pose proof (recorded_event_lookup this env requestId sessionId
                recommendations acceptIndex languageId paginationIndex rec k)
    as Hev.
  destruct (recording_marks_empty_content_aux this env requestId sessionId
              recommendations acceptIndex languageId paginationIndex rec)
    as [Hnone Hsome].
  cbn zeta in Hev. fold out in Hev, Hnone, Hsome. rewrite Hk in Hev.
  eexists. split; [exact Hev|]. split; [done|]. split.
  - intros Hmap He. destruct (suggestionStates rec) as [m|]; [|done].
    destruct (Hsome m eq_refl) as (m' & -> & Hempty).
    cbn [codewhispererSuggestionState userDecision].
    unfold getSuggestionState. simpl. by rewrite (Hempty k e Hk He).
  - intros Hmap. rewrite (Hnone Hmap). done.
Qed.

Lemma reported_suggestion_state_witness :
  exists ev,
    emitted (recordUserDecisionTelemetry new_TelemetryHelper sampleEnv
               "request" "" sampleRecommendations 2 None 0
               (emptyRecording None)) !! (0 + 1) = Some ev
    /\ codewhispererSuggestionState ev = "Ignore".
Proof.
  destruct (reported_suggestion_state new_TelemetryHelper sampleEnv "request"
              "" sampleRecommendations 2 None 0 (emptyRecording None) 1
              (Build_Recommendation sampleEnv "" (Some ["MIT"])) eq_refl)
    as (ev & Hev & _ & _ & Hstate).
  exists ev. split; [exact Hev|]. by rewrite Hstate.
Defined.

Lemma one_event_per_recommendation_witness :
  recordUserDecisionTelemetry new_TelemetryHelper sampleEnv "request" "" []
    2 None 0 (emptyRecording None) = emptyRecording None.
Proof.
  by apply (one_event_per_recommendation new_TelemetryHelper sampleEnv
              "request" "" [] 2 None 0 (emptyRecording None)).
Defined.

(** X17: a call reports 'Accept' at most once, and only for the
    recommendation whose index is [acceptIndex]: two events of the call in
    state 'Accept' are the same event, and there is none when [acceptIndex]
    is -1. *)
Theorem accept_reported_at_most_once (this : TelemetryHelper)
    (env : TelemetryEnv) (requestId sessionId : string)
    (recommendations : list (Recommendation env)) (acceptIndex : Z)
    (languageId : option string) (paginationIndex : Z) (rec : Recording)
    (j k : nat) (evj evk : UserDecision) :
  let out := recordUserDecisionTelemetry this env requestId sessionId
               recommendations acceptIndex languageId paginationIndex rec in
  emitted out !! (length (emitted rec) + j) = Some evj ->
  emitted out !! (length (emitted rec) + k) = Some evk ->
  codewhispererSuggestionState evj = "Accept" ->
  codewhispererSuggestionState evk = "Accept" ->
  j = k /\ Z.of_nat k = acceptIndex /\ acceptIndex <> (-1)%Z.
Proof.
  intros out Hj Hk Haj Hak. subst out.
  rewrite recorded_event_lookup in Hj, Hk.
  destruct (recommendations !! j) as [ej|]; [|done].
  destruct (recommendations !! k) as [ek|]; [|done].
  injection Hj as <-. injection Hk as <-.
  cbn [codewhispererSuggestionState userDecision] in Haj, Hak.
  apply getSuggestionState_Accept in Haj as (Hj & _).
  apply getSuggestionState_Accept in Hak as (Hk & Hne & _).
  split_and!; [lia|done|done].
Qed.

Lemma accept_reported_at_most_once_witness :
  2 = 2 /\ Z.of_nat 2 = 2%Z /\ 2%Z <> (-1)%Z.
Proof.
  apply (accept_reported_at_most_once new_TelemetryHelper sampleEnv "request"
           "" sampleRecommendations 2 None 0 (emptyRecording None) 2 2
           (userDecision new_TelemetryHelper sampleEnv "request" "" 2
              "plaintext" 0
              (Build_Recommendation sampleEnv "y = 2" (Some ["MIT"; "MIT"]))
              2 None new_TelemetryHelper)
           (userDecision new_TelemetryHelper sampleEnv "request" "" 2
              "plaintext" 0
              (Build_Recommendation sampleEnv "y = 2" (Some ["MIT"; "MIT"]))
              2 None new_TelemetryHelper));
    reflexivity.
Defined.

(** X18: [getSuggestionState] always returns one of the seven names of
    [CodewhispererSuggestionState], whatever strings the map holds. *)
Theorem getSuggestionState_valid_name (i acceptIndex : Z)
    (states : option (gmap Z string)) :
  getSuggestionState i acceptIndex states ∈ suggestionStateNames.
Proof.
  unfold getSuggestionState, suggestionStateNames.
  assert ((if bool_decide (states <> None)
              && bool_decide (states ≫= (fun m => m !! i) <> Some "Showed")
           then "Unseen"
           else if bool_decide (acceptIndex = (-1)%Z) then "Reject"
                else if bool_decide (i = acceptIndex) then "Accept"
                     else "Ignore")
          ∈ ["Accept"; "Reject"; "Discard"; "Ignore"; "Filter"; "Unseen"; "Empty"])
    as Hrest.
  { destruct (_ && _).
    - by do 5 right; left.
    - destruct (bool_decide (acceptIndex = (-1)%Z)); [by right; left|].
      destruct (bool_decide (i = acceptIndex)); [by left|].
      by do 3 right; left. }
  destruct (states ≫= (fun m => m !! i)) as [s|]; [|done].
  destruct (Js.truthy s && Array_includes ["Empty"; "Filter"; "Discard"] s)
    eqn:Hin; [|done].
  apply andb_true_iff in Hin as [_ Hin]. unfold Array_includes in Hin.
  apply bool_decide_eq_true_1 in Hin.
  apply elem_of_cons in Hin as [->|Hin]; [by do 6 right; left|].
  apply elem_of_cons in Hin as [->|Hin]; [by do 4 right; left|].
  apply elem_of_cons in Hin as [->|Hin]; [by do 2 right; left|].
  inversion Hin.
Qed.

Lemma forEach_static_instance (this : TelemetryHelper) (env : TelemetryEnv)
    (requestId sessionId : string) (acceptIndex : Z) (language : string)
    (paginationIndex : Z) (l : list (Recommendation env)) (i : nat)
    (rec : Recording) :
  l <> [] ->
  static_instance
    (Array_forEach_from
       (recordOne this env requestId sessionId acceptIndex language
          paginationIndex) l i rec) =
  Some (Js.nullish (static_instance rec) new_TelemetryHelper).
Proof.
  revert i rec. induction l as [|e l IH]; intros i rec Hne; [done|].
  cbn [Array_forEach_from]. destruct l as [|e' l].
  - done.
  - rewrite IH by done. done.
Qed.

(** X19: what every event of a call has in common.  The request id, the
    pagination index, the language and the trigger and completion types of
    the helper are passed on; an empty session id is reported as
    [undefined]; and the start URL is that of the static instance, not of
    the helper called, the instance being created, with an empty start URL,
    when there is none yet. *)
Theorem common_fields_of_events (this : TelemetryHelper)
    (env : TelemetryEnv) (requestId sessionId : string)
    (recommendations : list (Recommendation env)) (acceptIndex : Z)
    (languageId : option string) (paginationIndex : Z) (rec : Recording)
    (k : nat) (ev : UserDecision) :
  let out := recordUserDecisionTelemetry this env requestId sessionId
               recommendations acceptIndex languageId paginationIndex rec in
  emitted out !! (length (emitted rec) + k) = Some ev ->
  codewhispererRequestId ev = requestId
  /\ codewhispererSessionId ev =
       (if bool_decide (sessionId = "") then None else Some sessionId)
  /\ codewhispererPaginationProgress ev = paginationIndex
  /\ codewhispererTriggerType ev = triggerType this
  /\ codewhispererCompletionType ev = completionType this
  /\ codewhispererLanguage ev = getLanguageContext_language env languageId
  /\ credentialStartUrl ev =
       match static_instance rec with
       | Some instance => startUrl instance
       | None => Some ""
       end
  /\ static_instance out =
       Some (Js.nullish (static_instance rec) new_TelemetryHelper).
Proof.
  intros out Hev. subst out. rewrite recorded_event_lookup in Hev.
  destruct (recommendations !! k) as [e|] eqn:Hk; [|done].
  injection Hev as <-. cbn [userDecision codewhispererRequestId
    codewhispererSessionId codewhispererPaginationProgress
    codewhispererTriggerType codewhispererCompletionType
    codewhispererLanguage credentialStartUrl].
  split_and!; try done.
  - destruct sessionId; done.
  - by destruct (static_instance rec).
  - apply forEach_static_instance. intros ->. done.
Qed.

Lemma common_fields_of_events_witness :
  credentialStartUrl
    (userDecision new_TelemetryHelper sampleEnv "request" "" 2 "plaintext" 0
       (Build_Recommendation sampleEnv "x = 1" None) 0 None new_TelemetryHelper)
  = Some "".
Proof.
  apply (common_fields_of_events new_TelemetryHelper sampleEnv "request" ""
           sampleRecommendations 2 None 0 (emptyRecording None) 0).
  reflexivity.
Defined.
